(** * Word-search puzzle validation and bounded retry

    A shallow embedding of [validateAndCorrectPuzzleData] and
    [generateWordSearch], the response validator/corrector and the retry
    loop of the puzzle generation service, together with their
    properties; and of what surrounds them: the solution overlay of the
    grid component, the handlers of the form, and the generation handler
    and the panels of the page.

    Modelling conventions.
    - JSON integers ([startRow], [size], ...) are [Z]; the schema declares
      them INTEGER, and on integers the JavaScript operators used by the
      code ([Math.abs], [Math.max], [Math.sign], [+], comparisons) agree
      with their [Z] counterparts.
    - Strings are [string]s, a character standing for a code unit, and
      [String.length] for the JavaScript [length].  The case mapping
      [toUpperCase] is a parameter ([CaseMapping]): a theorem holds for
      every mapping, JavaScript's included, unless it states what it
      needs of it; [ascii_case] is the mapping on ASCII, used to run the
      scenarios.
    - A grid is an array of arrays, as its type says; an entry is a
      [Cell]: either a string or some other JSON value, since the
      validator tests [typeof cell === 'string'] itself.
    - [throw] is a result in [Error + _]; a failed property access on
      [undefined] is the error [TypeError].
    - The key [`${r}-${c}`] of the occupied-cell map is the string made
      of the two decimal renderings and a dash; [cell_key_inj] shows that
      it determines the cell.
    - A loop with no bound of its own ([while (true)] in the grid
      component) takes a number of iterations it may use, and yields
      [None] when they do not suffice; termination is then a theorem.
    - A component is its state and its handlers as functions on that
      state; what a handler does to the outside (an alert, a call of a
      callback) is a list of effects. *)

From Stdlib Require Import ZArith Lia Ascii String.
From stdpp Require Import gmap strings list fin_maps pretty.

Open Scope Z_scope.

(** ** Data model (types.ts) *)

Record Solution := mkSolution {
  word : string;
  startRow : Z;
  startCol : Z;
  endRow : Z;
  endCol : Z
}.

Inductive Cell :=
| CStr (s : string)
| COther.

Abbreviation Grid := (list (list Cell)).

Record PuzzleData := mkPuzzleData {
  grid : Grid;
  solution : list Solution;
  wordsUsed : list string
}.

#[global] Instance Cell_eq_dec : EqDecision Cell.
Proof. solve_decision. Defined.

#[global] Instance Solution_eq_dec : EqDecision Solution.
Proof. solve_decision. Defined.

(** The exceptions the validator can raise, one constructor per [throw]
    of the source, carrying the values interpolated in its message.  The
    last one is the runtime's own: reading a property of [undefined]. *)
Inductive Error :=
| ShapeError (size : Z)
| CornerError (w : string)
| NotInWordsUsed (w : string)
| OutOfBounds (w : string)
| LengthMismatch (w : string) (expectedLength len : Z)
| IntersectionError (w existing : string) (row col : Z)
| TypeError.

#[global] Instance Error_eq_dec : EqDecision Error.
Proof. solve_decision. Defined.

(** An error names a word when the word is interpolated in its message. *)
Definition names (e : Error) (w : string) : Prop :=
  match e with
  | CornerError w' | NotInWordsUsed w' | OutOfBounds w'
  | LengthMismatch w' _ _ => w' = w
  | IntersectionError w1 w2 _ _ => w1 = w ∨ w2 = w
  | ShapeError _ | TypeError => False
  end.

(** The sequence of checks runs in the error monad: the first [throw]
    ends the call. *)
#[global] Instance Error_bind : MBind (sum Error) := λ A B f m,
  match m with
  | inl e => inl e
  | inr a => f a
  end.

Definition guard (b : bool) (e : Error) : Error + unit :=
  if b then inl e else inr tt.

(** ** Strings *)

(** [String.prototype.toUpperCase].  The Unicode case mapping is not
    reproduced: the embedding is parametric in it, and a property that
    depends on what the mapping does to a letter says so (see
    [plain_letter]). *)
Class CaseMapping := toUpperCase : string → string.

Definition len (s : string) : Z := Z.of_nat (String.length s).

(** The mapping on the letters a-z, every other character being left
    alone: what [toUpperCase] does on ASCII. *)
Definition upper_ascii (a : ascii) : ascii :=
  let n := N_of_ascii a in
  if ((97 <=? n) && (n <=? 122))%N then ascii_of_N (n - 32) else a.

Fixpoint ascii_toUpperCase (s : string) : string :=
  match s with
  | EmptyString => EmptyString
  | String a s' => String (upper_ascii a) (ascii_toUpperCase s')
  end.

Definition ascii_case : CaseMapping := ascii_toUpperCase.

(** The same mapping with one of the special cases of the Unicode
    tables: the upper case of the sharp s (U+00DF) is SS. *)
Definition sharp_s : ascii := ascii_of_N 223.

Fixpoint sharp_toUpperCase (s : string) : string :=
  match s with
  | EmptyString => EmptyString
  | String a s' =>
      (if decide (a = sharp_s) then "SS"%string
       else String (upper_ascii a) EmptyString)
      +:+ sharp_toUpperCase s'
  end.

Definition sharp_case : CaseMapping := sharp_toUpperCase.

(** ** Arrays indexed by a JavaScript number *)

(** [l[i]]: [undefined] (here [None]) outside [0 .. length). *)
Definition array_get {A} (l : list A) (i : Z) : option A :=
  if decide (0 ≤ i) then l !! Z.to_nat i else None.

(** [correctedGrid[r][c]] as a read; [None] stands for the [undefined]
    on which the following property access throws. *)
Definition grid_get (g : Grid) (r c : Z) : option Cell :=
  match array_get g r with
  | Some row => array_get row c
  | None => None
  end.

(** [correctedGrid[r][c] = x].  The source reaches the assignment only
    after the read at the same indices has produced a string, so both
    indices are in range there; out of range the model leaves the grid
    alone. *)
Definition grid_set (g : Grid) (r c : Z) (x : Cell) : Grid :=
  match array_get g r with
  | Some row =>
      if decide (0 ≤ c) then <[Z.to_nat r := <[Z.to_nat c := x]> row]> g
      else g
  | None => g
  end.

(** ** The validator *)

Definition is_single_char (cell : Cell) : bool :=
  match cell with
  | CStr s => bool_decide (len s = 1)
  | COther => false
  end.

(** The condition of the first [if]: the grid is rejected when it holds. *)
Definition shape_bad (correctedGrid : Grid) (size : Z) : bool :=
  negb (bool_decide (Z.of_nat (length correctedGrid) = size))
  || existsb (fun row =>
        negb (bool_decide (Z.of_nat (length row) = size))
        || negb (forallb is_single_char row)) correctedGrid.

(** The key of a cell in the occupied-cell map, [`${r}-${c}`]. *)
Definition cell_key (r c : Z) : string := pretty r +:+ "-" +:+ pretty c.

Definition key_of (k : Z * Z) : string := cell_key k.1 k.2.

Abbreviation Occupied := (gmap string (string * string)).

(** A string without a dash: the digits of a number are one. *)
Fixpoint dashless (s : string) : Prop :=
  match s with
  | EmptyString => True
  | String a s' => a ≠ "-"%char ∧ dashless s'
  end.

Definition State : Type := Grid * Occupied.

Section Validator.
Context {case : CaseMapping}.

(** The inner [for] loop: [rest] is the part of [word] from position [i]
    on, [(r, c)] the cell of position [i]. *)
Fixpoint walk (word rest : string) (r c dRow dCol : Z)
    (correctedGrid : Grid) (occupiedCells : Occupied) : Error + State :=
  match rest with
  | EmptyString => inr (correctedGrid, occupiedCells)
  | String ch rest' =>
      let key := cell_key r c in
      let expectedChar := toUpperCase (String ch EmptyString) in
      match occupiedCells !! key with
      | Some existingOccupant =>
          inl (IntersectionError word existingOccupant.1 (r + 1) (c + 1))
      | None =>
          let occupiedCells' := <[key := (word, expectedChar)]> occupiedCells in
          match grid_get correctedGrid r c with
          | Some (CStr s) =>
              let correctedGrid' :=
                if decide (toUpperCase s = expectedChar) then correctedGrid
                else grid_set correctedGrid r c (CStr expectedChar) in
              walk word rest' (r + dRow) (c + dCol) dRow dCol
                correctedGrid' occupiedCells'
          | _ => inl TypeError
          end
      end
  end.

Definition expectedLength (sol : Solution) : Z :=
  Z.max (Z.abs (endRow sol - startRow sol)) (Z.abs (endCol sol - startCol sol)) + 1.

Definition out_of_bounds (sol : Solution) (size : Z) : bool :=
  bool_decide (startRow sol < 0) || bool_decide (size ≤ startRow sol)
  || bool_decide (startCol sol < 0) || bool_decide (size ≤ startCol sol)
  || bool_decide (endRow sol < 0) || bool_decide (size ≤ endRow sol)
  || bool_decide (endCol sol < 0) || bool_decide (size ≤ endCol sol).

Definition corner_start (sol : Solution) : bool :=
  bool_decide (startRow sol = 0) && bool_decide (startCol sol = 0).

(** The inner loop started on a placement: the word from its first
    letter, the start cell, the unit steps given by [Math.sign]. *)
Definition walk_of (sol : Solution) (st : State) : Error + State :=
  walk (word sol) (word sol) (startRow sol) (startCol sol)
    (Z.sgn (endRow sol - startRow sol)) (Z.sgn (endCol sol - startCol sol))
    st.1 st.2.

(** The body of the loop over [solution]. *)
Definition place (size : Z) (wordsUsed : list string) (st : State)
    (sol : Solution) : Error + State :=
  _ ← guard (corner_start sol) (CornerError (word sol));
  _ ← guard (negb (bool_decide (word sol ∈ wordsUsed)))
        (NotInWordsUsed (word sol));
  _ ← guard (out_of_bounds sol size) (OutOfBounds (word sol));
  _ ← guard (negb (bool_decide (expectedLength sol = len (word sol))))
        (LengthMismatch (word sol) (expectedLength sol) (len (word sol)));
  walk_of sol st.

Fixpoint place_all (size : Z) (wordsUsed : list string)
    (sols : list Solution) (st : State) : Error + State :=
  match sols with
  | [] => inr st
  | sol :: sols' =>
      st' ← place size wordsUsed st sol;
      place_all size wordsUsed sols' st'
  end.

(** On values the copy [grid.map(row => [...row])] is the grid itself;
    [Heap.validateAndCorrectPuzzleData] below has the copy and the
    writes. *)
Definition validateAndCorrectPuzzleData (data : PuzzleData) (size : Z)
    : Error + PuzzleData :=
  let correctedGrid := grid data in
  _ ← guard (shape_bad correctedGrid size) (ShapeError size);
  st ← place_all size (wordsUsed data) (solution data) (correctedGrid, ∅);
  inr {| grid := st.1; solution := solution data; wordsUsed := wordsUsed data |}.

End Validator.

(** ** The validator over a store of arrays

    In the source the rows of a grid are array objects, and
    [correctedGrid[r][c] = ...] writes into one.  This second embedding
    keeps the rows in a store, so that a grid is a list of references and
    two grids may share rows; the embedding above is what it computes on
    the contents (see [Heap_refines]).  The validator never assigns to
    [solution], [wordsUsed] or an outer array, which stay values. *)
Module Heap.

Abbreviation Store := (gmap positive (list Cell)).

Record PuzzleRef := mkPuzzleRef {
  grid : list positive;
  solution : list Solution;
  wordsUsed : list string
}.

(** The contents of the rows a grid refers to (a reference always
    points to an array; the model reads a dangling one as empty). *)
Definition rows_of (σ : Store) (g : list positive) : Grid :=
  (λ l, default [] (σ !! l)) <$> g.

(** [grid.map(row => [...row])]: each row is copied into a new array. *)
Fixpoint copy_rows (σ : Store) (g : list positive)
    : Store * list positive :=
  match g with
  | [] => (σ, [])
  | l :: g' =>
      let l' := fresh (dom σ) in
      let res := copy_rows (<[l' := default [] (σ !! l)]> σ) g' in
      (res.1, l' :: res.2)
  end.

Definition get (σ : Store) (correctedGrid : list positive) (r c : Z)
    : option Cell :=
  match array_get correctedGrid r with
  | Some l =>
      match σ !! l with
      | Some row => array_get row c
      | None => None
      end
  | None => None
  end.

Definition set (σ : Store) (correctedGrid : list positive) (r c : Z)
    (x : Cell) : Store :=
  match array_get correctedGrid r with
  | Some l =>
      match σ !! l with
      | Some row =>
          if decide (0 ≤ c) then <[l := <[Z.to_nat c := x]> row]> σ else σ
      | None => σ
      end
  | None => σ
  end.

Section Store.
Context {case : CaseMapping}.

Fixpoint walk (word rest : string) (r c dRow dCol : Z)
    (correctedGrid : list positive) (σ : Store) (occupiedCells : Occupied)
    : Store * (Error + Occupied) :=
  match rest with
  | EmptyString => (σ, inr occupiedCells)
  | String ch rest' =>
      let key := cell_key r c in
      let expectedChar := toUpperCase (String ch EmptyString) in
      match occupiedCells !! key with
      | Some existingOccupant =>
          (σ, inl (IntersectionError word existingOccupant.1 (r + 1) (c + 1)))
      | None =>
          let occupiedCells' :=
            <[key := (word, expectedChar)]> occupiedCells in
          match get σ correctedGrid r c with
          | Some (CStr s) =>
              let σ' :=
                if decide (toUpperCase s = expectedChar) then σ
                else set σ correctedGrid r c (CStr expectedChar) in
              walk word rest' (r + dRow) (c + dCol) dRow dCol
                correctedGrid σ' occupiedCells'
          | _ => (σ, inl TypeError)
          end
      end
  end.

Definition walk_of (sol : Solution) (correctedGrid : list positive)
    (σ : Store) (occupiedCells : Occupied) : Store * (Error + Occupied) :=
  walk (word sol) (word sol) (startRow sol) (startCol sol)
    (Z.sgn (endRow sol - startRow sol)) (Z.sgn (endCol sol - startCol sol))
    correctedGrid σ occupiedCells.

Definition place (size : Z) (wordsUsed : list string)
    (correctedGrid : list positive) (σ : Store) (occupiedCells : Occupied)
    (sol : Solution) : Store * (Error + Occupied) :=
  if corner_start sol then (σ, inl (CornerError (word sol)))
  else if negb (bool_decide (word sol ∈ wordsUsed)) then
    (σ, inl (NotInWordsUsed (word sol)))
  else if out_of_bounds sol size then (σ, inl (OutOfBounds (word sol)))
  else if negb (bool_decide (expectedLength sol = len (word sol))) then
    (σ, inl (LengthMismatch (word sol) (expectedLength sol) (len (word sol))))
  else walk_of sol correctedGrid σ occupiedCells.

Fixpoint place_all (size : Z) (wordsUsed : list string)
    (correctedGrid : list positive) (sols : list Solution)
    (σ : Store) (occupiedCells : Occupied) : Store * (Error + Occupied) :=
  match sols with
  | [] => (σ, inr occupiedCells)
  | sol :: sols' =>
      match place size wordsUsed correctedGrid σ occupiedCells sol with
      | (σ', inr occupiedCells') =>
          place_all size wordsUsed correctedGrid sols' σ' occupiedCells'
      | failure => failure
      end
  end.

(** The store after the call, and what the call returns or throws. *)
Definition validateAndCorrectPuzzleData (σ : Store) (data : PuzzleRef)
    (size : Z) : Store * (Error + PuzzleRef) :=
  let copied := copy_rows σ (grid data) in
  let correctedGrid := copied.2 in
  if shape_bad (rows_of copied.1 correctedGrid) size then
    (copied.1, inl (ShapeError size))
  else
    match place_all size (wordsUsed data) correctedGrid (solution data)
            copied.1 ∅ with
    | (σ', inl e) => (σ', inl e)
    | (σ', inr _) =>
        (σ', inr {| grid := correctedGrid; solution := solution data;
                    wordsUsed := wordsUsed data |})
    end.

(** The puzzle a reference denotes in a store. *)
Definition value (σ : Store) (data : PuzzleRef) : PuzzleData :=
  mkPuzzleData (rows_of σ (grid data)) (solution data) (wordsUsed data).

End Store.

End Heap.

(** ** The cells of a placement *)

(** The cells the inner loop visits, each with the letter of the word it
    is visited for: one per iteration, stepping by [(dRow, dCol)]. *)
Fixpoint claims_from (r c dRow dCol : Z) (rest : string)
    : list ((Z * Z) * ascii) :=
  match rest with
  | EmptyString => []
  | String ch rest' =>
      ((r, c), ch) :: claims_from (r + dRow) (c + dCol) dRow dCol rest'
  end.

Definition visits (sol : Solution) : list ((Z * Z) * ascii) :=
  claims_from (startRow sol) (startCol sol)
    (Z.sgn (endRow sol - startRow sol)) (Z.sgn (endCol sol - startCol sol))
    (word sol).

Definition cells (sol : Solution) : list (Z * Z) := (visits sol).*1.

Definition in_grid (size : Z) (k : Z * Z) : Prop :=
  0 ≤ k.1 < size ∧ 0 ≤ k.2 < size.

(** ** Predicates of the specification *)

(** The shape the grid must have: [size] rows of [size] one-character
    strings. *)
Definition shape_ok (g : Grid) (size : Z) : Prop :=
  Z.of_nat (length g) = size ∧
  Forall (λ row, Z.of_nat (length row) = size ∧
                 Forall (λ cell, ∃ s, cell = CStr s ∧ len s = 1) row) g.

(** A straight line: horizontal, vertical, or diagonal of unit step. *)
Definition straight (sol : Solution) : Prop :=
  endRow sol = startRow sol ∨ endCol sol = startCol sol ∨
  Z.abs (endRow sol - startRow sol) = Z.abs (endCol sol - startCol sol).

(** The four checks made on a placement before its walk. *)
Definition checks_pass (size : Z) (wordsUsed : list string)
    (sol : Solution) : Prop :=
  corner_start sol = false ∧ word sol ∈ wordsUsed ∧
  out_of_bounds sol size = false ∧ expectedLength sol = len (word sol).

(** No two placements, and no two steps of one placement, visit the same
    cell. *)
Definition no_intersections (sols : list Solution) : Prop :=
  NoDup (sols ≫= cells).

Section Spelling.
Context {case : CaseMapping}.

(** A letter whose upper case is one character, which is its own upper
    case: the letters A-Z and a-z are. *)
Definition plain_letter (ch : ascii) : Prop :=
  len (toUpperCase (String ch EmptyString)) = 1 ∧
  toUpperCase (toUpperCase (String ch EmptyString))
  = toUpperCase (String ch EmptyString).

Definition plain_word (w : string) : Prop :=
  ∀ ch, ch ∈ list_ascii_of_string w → plain_letter ch.

(** The letter [ch] is spelled at cell [k] of [g], up to case. *)
Definition spells (g : Grid) (k : Z * Z) (ch : ascii) : Prop :=
  ∃ s, grid_get g k.1 k.2 = Some (CStr s) ∧
       toUpperCase s = toUpperCase (String ch EmptyString).

(** The outcome of the repair of one cell. *)
Definition repaired (s : string) (ch : ascii) : string :=
  if decide (toUpperCase s = toUpperCase (String ch EmptyString)) then s
  else toUpperCase (String ch EmptyString).

End Spelling.

(** A grid of [size] rows of [size] strings, of whatever length. *)
Definition grid_ok (g : Grid) (size : Z) : Prop :=
  Z.of_nat (length g) = size ∧
  Forall (λ row, Z.of_nat (length row) = size ∧
                 Forall (λ cell, ∃ s, cell = CStr s) row) g.

(** What a store-based computation does, against the value-based one:
    it changes no array outside the corrected grid, frees none, fails
    with the same error, and otherwise leaves in the corrected grid the
    grid the value-based computation returns. *)
Definition Heap_simulates (cg : list positive) (σ : Heap.Store)
    (h : Heap.Store * (Error + Occupied)) (v : Error + State) : Prop :=
  (∀ l, l ∉ cg → h.1 !! l = σ !! l) ∧
  (∀ l, is_Some (σ !! l) → is_Some (h.1 !! l)) ∧
  match v with
  | inl e => h.2 = inl e
  | inr st => h.2 = inr st.2 ∧ Heap.rows_of h.1 cg = st.1
  end.

(** ** The retry loop *)

Inductive Direction := LTR | TTB | DLR | RTL | BTT | DRL.

(** What the generator is asked: the prompt is built once, before the
    loop, from these three values. *)
Record Request := mkRequest {
  req_words : list string;
  req_size : Z;
  req_directions : list Direction
}.

(** What one request to the external service yields once [JSON.parse]
    has run: an exception (the call was rejected, the response had no
    text, the text was not JSON, the value was not an object), or an
    object whose three fields are each present (truthy) or not. *)
Inductive Response :=
| Rejected (message : string)
| Payload (grid : option Grid) (solution : option (list Solution))
    (wordsUsed : option (list string)).

(** The exception caught at the end of a failed attempt. *)
Inductive AttemptError :=
| External (message : string)
| InvalidStructure
| Invalid (e : Error).

(** The lines written to the console. *)
Inductive LogLine :=
| Warn (attempt : nat) (e : AttemptError)
| AllFailed (lastError : option AttemptError).

Definition MAX_RETRIES : nat := 3.

(** The message of the error thrown after the loop. *)
Definition terminal_message : string :=
  "The model failed to generate a valid puzzle after " +:+ pretty MAX_RETRIES
  +:+ " attempts. This can happen if words are too long for the grid size. Please try using a larger grid or shorter words.".

Section Retry.
Context {case : CaseMapping}.

(** The body of the [try] block, given the response to its request. *)
Definition attempt_body (resp : Response) (size : Z)
    : AttemptError + PuzzleData :=
  match resp with
  | Rejected m => inl (External m)
  | Payload (Some g) (Some sols) (Some wu) =>
      match validateAndCorrectPuzzleData
              {| grid := g; solution := sols; wordsUsed := wu |} size with
      | inl e => inl (Invalid e)
      | inr data => inr data
      end
  | Payload _ _ _ => inl InvalidStructure
  end.

(** What a call of [generateWordSearch] leaves behind: the puzzle it
    returns or the message of the error it throws, the number of requests
    it sent to the generator, and the console. *)
Record Outcome := mkOutcome {
  result : string + PuzzleData;
  requests : nat;
  console : list LogLine
}.

(** After the loop: the last error is logged and the terminal error
    thrown. *)
Definition exhausted (lastError : option AttemptError) (requests : nat)
    (console : list LogLine) : Outcome :=
  {| result := inl terminal_message; requests := requests;
     console := console ++ [AllFailed lastError] |}.

(** The [for] loop, [n] being the number of values [attempt] has still to
    take.  [generator req i] is the response to the [i]-th request. *)
Fixpoint attempts (n : nat) (attempt : nat)
    (generator : Request → nat → Response) (req : Request)
    (lastError : option AttemptError) (requests : nat)
    (console : list LogLine) : Outcome :=
  match n with
  | O => exhausted lastError requests console
  | S n' =>
      let requests := S requests in
      match attempt_body (generator req requests) (req_size req) with
      | inr data =>
          {| result := inr data; requests := requests; console := console |}
      | inl e =>
          let console := console ++ [Warn attempt e] in
          if decide (attempt = MAX_RETRIES) then
            exhausted (Some e) requests console
          else attempts n' (S attempt) generator req (Some e) requests console
      end
  end.

Definition generateWordSearch (generator : Request → nat → Response)
    (words : list string) (size : Z) (directions : list Direction)
    : Outcome :=
  attempts MAX_RETRIES 1 generator (mkRequest words size directions)
    None 0 [].

(** An attempt fails when its [try] block throws. *)
Definition failed (resp : Response) (size : Z) : Prop :=
  ∃ e, attempt_body resp size = inl e.

End Retry.

(** ** The grid component *)

Definition colorPalette : list string :=
  [ "bg-yellow-200"; "bg-lime-200"; "bg-green-200"; "bg-emerald-200";
    "bg-teal-200"; "bg-cyan-200"; "bg-sky-200"; "bg-blue-200";
    "bg-indigo-200"; "bg-violet-200"; "bg-purple-200"; "bg-fuchsia-200";
    "bg-pink-200"; "bg-rose-200" ]%string.

(** The [Map] of the component: from the key of a cell to what the
    lookup in the palette gave, a class or [undefined]. *)
Abbreviation CellMap := (gmap string (option string)).

(** The [while (true)] loop of one placement.  [fuel] bounds the number
    of iterations; [None] is a loop still running when it is used up. *)
Fixpoint highlight (fuel : nat) (r c endRow endCol dRow dCol : Z)
    (color : option string) (cellMap : CellMap) : option CellMap :=
  match fuel with
  | O => None
  | S fuel' =>
      let cellMap := <[cell_key r c := color]> cellMap in
      if decide (r = endRow ∧ c = endCol) then Some cellMap
      else highlight fuel' (r + dRow) (c + dCol) endRow endCol dRow dCol
             color cellMap
  end.

(** The callback of [solution.forEach], at a placement and its index. *)
Definition highlight_placement (fuel : nat) (index : nat) (sol : Solution)
    (cellMap : CellMap) : option CellMap :=
  let dRow := Z.sgn (endRow sol - startRow sol) in
  let dCol := Z.sgn (endCol sol - startCol sol) in
  let color := colorPalette !! (index mod length colorPalette)%nat in
  highlight fuel (startRow sol) (startCol sol) (endRow sol) (endCol sol)
    dRow dCol color cellMap.

Fixpoint highlight_all (fuel : nat) (index : nat) (sols : list Solution)
    (cellMap : CellMap) : option CellMap :=
  match sols with
  | [] => Some cellMap
  | sol :: rest =>
      cellMap' ← highlight_placement fuel index sol cellMap;
      highlight_all fuel (S index) rest cellMap'
  end.

Definition highlightedCells (fuel : nat) (showSolution : bool)
    (solution : list Solution) : option CellMap :=
  if negb showSolution then Some ∅
  else highlight_all fuel 0 solution ∅.

(** [highlightedCells.get(cellKey)] at the cell of a row and a column
    index of the grid: a class, or [undefined]. *)
Definition highlightColor (cellMap : CellMap) (rowIndex colIndex : nat)
    : option string :=
  mjoin (cellMap !! cell_key (Z.of_nat rowIndex) (Z.of_nat colIndex)).

(** The cells of a list, set to one colour. *)
Definition paint (color : option string) (ks : list (Z * Z))
    (cellMap : CellMap) : CellMap :=
  foldl (λ m k, <[key_of k := color]> m) cellMap ks.

(** ** The controls *)

#[global] Instance Direction_eq_dec : EqDecision Direction.
Proof. solve_decision. Defined.

Module Controls.

(** The line feed, the separator of [split]. *)
Definition LF : ascii := ascii_of_N 10.

(** [s.split('\n')]: the lines of [s], at least one. *)
Fixpoint split (s : string) : list string :=
  match s with
  | EmptyString => [EmptyString]
  | String ch rest =>
      if decide (ch = LF) then EmptyString :: split rest
      else match split rest with
           | w :: ws => String ch w :: ws
           | [] => [String ch EmptyString]
           end
  end.

(** The white space and line terminators that [trim] removes, among the
    code units below 256: tab, line feed, vertical tab, form feed,
    carriage return, space and no-break space. *)
Definition is_space (ch : ascii) : bool :=
  bool_decide (N_of_ascii ch ∈ [9; 10; 11; 12; 13; 32; 160]%N).

Fixpoint trimStart (s : string) : string :=
  match s with
  | EmptyString => EmptyString
  | String ch rest => if is_space ch then trimStart rest else s
  end.

Fixpoint trimEnd (s : string) : string :=
  match s with
  | EmptyString => EmptyString
  | String ch rest =>
      match trimEnd rest with
      | EmptyString => if is_space ch then EmptyString
                       else String ch EmptyString
      | t => String ch t
      end
  end.

Definition trim (s : string) : string := trimEnd (trimStart s).

(** The state of the component.  A [Set] of directions is the list of
    its elements in the order they were added, without repetition; this
    is the order [Array.from] gives. *)
Record State := mkState {
  words : string;
  size : Z;
  selectedDirections : list Direction
}.

Definition initial : State :=
  {| words := "React" +:+ String LF "TypeScript" +:+ String LF "Tailwind"
              +:+ String LF "Gemini" +:+ String LF "Component";
     size := 15;
     selectedDirections := [LTR; TTB; DLR] |}.

(** What a handler does besides updating the state. *)
Inductive Effect :=
| Alert (message : string)
| OnGenerate (words : list string) (size : Z) (directions : list Direction).

Definition handleDirectionChange (st : State) (direction : Direction)
    : State :=
  let newDirections := selectedDirections st in
  let newDirections :=
    if bool_decide (direction ∈ newDirections)
    then filter (λ d, d ≠ direction) newDirections
    else newDirections ++ [direction] in
  {| words := words st; size := size st;
     selectedDirections := newDirections |}.

(** The words handed over by [handleSubmit]: the lines, trimmed, the
    empty ones dropped. *)
Definition wordList (words : string) : list string :=
  filter (λ w, w ≠ EmptyString) (trim <$> split words).

Definition handleSubmit (st : State) : list Effect :=
  let wordList := wordList (words st) in
  if (length wordList =? 0)%nat || (length (selectedDirections st) =? 0)%nat
  then [Alert "Please enter at least one word and select at least one direction."]
  else [OnGenerate wordList (size st) (selectedDirections st)].

(** The change handler of the size field.  [parsed] is what [parseInt]
    made of the text of the field, [None] being [NaN]; [NaN] and 0 are
    falsy and give 5. *)
Definition size_onChange (st : State) (parsed : option Z) : State :=
  let n := match parsed with
           | Some n => if decide (n = 0) then 5 else n
           | None => 5
           end in
  {| words := words st; size := Z.max 5 (Z.min 30 n);
     selectedDirections := selectedDirections st |}.

Definition words_onChange (st : State) (value : string) : State :=
  {| words := value; size := size st;
     selectedDirections := selectedDirections st |}.

(** What a user can do with the form. *)
Inductive Event :=
| WordsChange (value : string)
| SizeChange (parsed : option Z)
| DirectionChange (direction : Direction)
| Submit.

Definition step (st : State) (ev : Event) : State * list Effect :=
  match ev with
  | WordsChange value => (words_onChange st value, [])
  | SizeChange parsed => (size_onChange st parsed, [])
  | DirectionChange direction => (handleDirectionChange st direction, [])
  | Submit => (st, handleSubmit st)
  end.

Fixpoint run (st : State) (evs : list Event) : State * list Effect :=
  match evs with
  | [] => (st, [])
  | ev :: evs =>
      let '(st1, out1) := step st ev in
      let '(st2, out2) := run st1 evs in
      (st2, out1 ++ out2)
  end.

(** The first and the last character of a string. *)
Definition first_char (s : string) : option ascii :=
  match s with
  | EmptyString => None
  | String ch _ => Some ch
  end.

Fixpoint last_char (s : string) : option ascii :=
  match s with
  | EmptyString => None
  | String ch rest =>
      match last_char rest with
      | Some ch' => Some ch'
      | None => Some ch
      end
  end.

(** A word as the generator should get it: not empty, on one line, with
    no white space around it. *)
Definition clean_word (w : string) : Prop :=
  w ≠ EmptyString ∧
  (LF ∉ list_ascii_of_string w) ∧
  (∀ ch, first_char w = Some ch → is_space ch = false) ∧
  (∀ ch, last_char w = Some ch → is_space ch = false).

(** A text made of white space only. *)
Definition blank_text (s : string) : Prop :=
  Forall (λ ch, is_space ch = true) (list_ascii_of_string s).

End Controls.

(** What holds of the state of the form whatever the user does. *)
Definition form_ok (st : Controls.State) : Prop :=
  5 ≤ Controls.size st ≤ 30 ∧ NoDup (Controls.selectedDirections st).

(** ** The application *)

Module App.

Record State := mkState {
  puzzleData : option PuzzleData;
  isLoading : bool;
  error : option string;
  showSolution : bool
}.

Definition initial : State :=
  {| puzzleData := None; isLoading := false; error := None;
     showSolution := false |}.


Section Generate.
Context {case : CaseMapping}.


End Generate.




End App.

(** ** Scenarios *)

Definition X : Cell := CStr "X".

Definition blank (n : nat) : Grid := replicate n (replicate n X).

(** Scenario A: the middle letter of CAT is wrong in the grid. *)
Definition scenarioA : PuzzleData :=
  {| grid := [ replicate 5 X;
               [X; CStr "C"; X; CStr "T"; X];
               replicate 5 X; replicate 5 X; replicate 5 X ];
     solution := [ mkSolution "CAT" 1 1 1 3 ];
     wordsUsed := [ "CAT"%string ] |}.

(** What the validator makes of scenario A. *)
Definition scenarioA_out : PuzzleData :=
  {| grid := [ replicate 5 X;
               [X; CStr "C"; CStr "A"; CStr "T"; X];
               replicate 5 X; replicate 5 X; replicate 5 X ];
     solution := [ mkSolution "CAT" 1 1 1 3 ];
     wordsUsed := [ "CAT"%string ] |}.

(** Scenario B: DOG and GOAT share the cell (0, 3). *)
Definition scenarioB : PuzzleData :=
  {| grid := blank 7;
     solution := [ mkSolution "DOG" 0 1 0 3; mkSolution "GOAT" 0 3 0 6 ];
     wordsUsed := [ "DOG"%string; "GOAT"%string ] |}.

(** Scenario C: SUN starts in the corner. *)
Definition scenarioC : PuzzleData :=
  {| grid := blank 5;
     solution := [ mkSolution "SUN" 0 0 0 2 ];
     wordsUsed := [ "SUN"%string ] |}.

(** Scenario D: every response carries an empty grid. *)
Definition scenarioD (req : Request) (i : nat) : Response :=
  Payload (Some []) (Some []) (Some []).

(** Scenario E: the first request is rejected, the second is answered
    with scenario A. *)
Definition scenarioE (req : Request) (i : nat) : Response :=
  match i with
  | 1%nat => Rejected "503"
  | _ => Payload (Some (grid scenarioA)) (Some (solution scenarioA))
           (Some (wordsUsed scenarioA))
  end.

(** SUN starts in the corner, after a placement that already fails. *)
Definition corner_after_failure : PuzzleData :=
  {| grid := blank 5;
     solution := [ mkSolution "DOG" 1 1 1 3; mkSolution "SUN" 0 0 0 2 ];
     wordsUsed := [ "SUN"%string ] |}.

(** SUN starts in the corner of a grid of the wrong shape. *)
Definition corner_in_bad_grid : PuzzleData :=
  {| grid := blank 4;
     solution := [ mkSolution "SUN" 0 0 0 2 ];
     wordsUsed := [ "SUN"%string ] |}.

(** CAT is not listed; DOG, before it, is in order. *)
Definition unlisted : PuzzleData :=
  {| grid := blank 5;
     solution := [ mkSolution "DOG" 1 1 1 3; mkSolution "CAT" 2 1 2 3 ];
     wordsUsed := [ "DOG"%string ] |}.

(** CAT is not listed, after a placement that already fails. *)
Definition unlisted_after_failure : PuzzleData :=
  {| grid := blank 5;
     solution := [ mkSolution "DOG" 1 1 1 9; mkSolution "CAT" 2 1 2 3 ];
     wordsUsed := [ "DOG"%string ] |}.

(** CAT is not listed, in a grid of the wrong shape. *)
Definition unlisted_in_bad_grid : PuzzleData :=
  {| grid := blank 4;
     solution := [ mkSolution "CAT" 2 1 2 3 ];
     wordsUsed := [ "DOG"%string ] |}.

(** A placement that is no straight line and has the length its
    coordinates imply: one row down, two columns right, three letters. *)
Definition bent : PuzzleData :=
  {| grid := blank 5;
     solution := [ mkSolution "ABC" 0 1 1 3 ];
     wordsUsed := [ "ABC"%string ] |}.

(** The same kind of placement near the last row: one row down, three
    columns right, four letters. *)
Definition off_grid : PuzzleData :=
  {| grid := blank 5;
     solution := [ mkSolution "ABCD" 3 1 4 4 ];
     wordsUsed := [ "ABCD"%string ] |}.

(** A one-letter word, the sharp s, in the middle of the grid. *)
Definition sharp_word : PuzzleData :=
  {| grid := blank 5;
     solution := [ mkSolution (String sharp_s EmptyString) 1 1 1 1 ];
     wordsUsed := [ String sharp_s EmptyString ] |}.

(** What the validator makes of it under [sharp_case]. *)
Definition sharp_word_out : PuzzleData :=
  {| grid := [ replicate 5 X;
               [X; CStr "SS"; X; X; X];
               replicate 5 X; replicate 5 X; replicate 5 X ];
     solution := [ mkSolution (String sharp_s EmptyString) 1 1 1 1 ];
     wordsUsed := [ String sharp_s EmptyString ] |}.

(** Two words on two rows of a blank grid, and what the validator makes
    of them. *)
Definition two_words : PuzzleData :=
  {| grid := blank 5;
     solution := [ mkSolution "CAT" 1 1 1 3; mkSolution "DOG" 3 1 3 3 ];
     wordsUsed := [ "CAT"%string; "DOG"%string ] |}.

Definition two_words_out : PuzzleData :=
  {| grid := [ replicate 5 X;
               [X; CStr "C"; CStr "A"; CStr "T"; X];
               replicate 5 X;
               [X; CStr "D"; CStr "O"; CStr "G"; X];
               replicate 5 X ];
     solution := [ mkSolution "CAT" 1 1 1 3; mkSolution "DOG" 3 1 3 3 ];
     wordsUsed := [ "CAT"%string; "DOG"%string ] |}.

(** A grid with no placement and an unrelated [wordsUsed]. *)
Definition no_placement : PuzzleData :=
  {| grid := blank 5; solution := []; wordsUsed := [ "ZEBRA"%string ] |}.

(** A grid one of whose entries is not a string. *)
Definition number_cell : Grid :=
  [ [X; X]; [X; COther] ].

(** Scenario A in a store where four rows of the grid are one array. *)
Definition shared_rows : Heap.Store :=
  {[ 1%positive := replicate 5 X;
     2%positive := [X; CStr "C"; X; CStr "T"; X] ]}.

Definition scenarioA_ref : Heap.PuzzleRef :=
  {| Heap.grid := [1; 2; 1; 1; 1]%positive;
     Heap.solution := [ mkSolution "CAT" 1 1 1 3 ];
     Heap.wordsUsed := [ "CAT"%string ] |}.

(** * Properties *)

(** Closed, decidable side conditions are settled by evaluation. *)
Ltac by_eval := apply (bool_decide_unpack _); vm_compute; exact I.

(** ** Strings *)

Lemma upper_ascii_idemp a : upper_ascii (upper_ascii a) = upper_ascii a.
Proof. by destruct a as [[] [] [] [] [] [] [] []]; vm_compute. Qed.

(** Under the ASCII mapping every character is a plain letter. *)
Lemma ascii_plain_letter ch : plain_letter (case := ascii_case) ch.
Proof.
  unfold plain_letter, toUpperCase, ascii_case. simpl.
  split; [done|]. by rewrite upper_ascii_idemp.
Qed.

Lemma ascii_plain_word w : plain_word (case := ascii_case) w.
Proof. intros ch _. apply ascii_plain_letter. Qed.

(** Under the mapping with the special case the sharp s is not one. *)
Lemma sharp_s_not_plain : ¬ plain_letter (case := sharp_case) sharp_s.
Proof. intros [Hlen _]. vm_compute in Hlen. discriminate. Qed.

(** ** The key of a cell *)

Lemma pretty_N_char_dashless x : pretty_N_char x ≠ "-"%char.
Proof. unfold pretty_N_char. by repeat case_match. Qed.

Lemma pretty_N_go_dashless x s : dashless s → dashless (pretty_N_go x s).
Proof.
  revert s. induction (N.lt_wf_0 x) as [x _ IH]; intros s Hs.
  destruct (decide (x = 0%N)) as [->|Hx]; [by rewrite pretty_N_go_0|].
  rewrite pretty_N_go_step by lia. apply IH.
  - apply N.div_lt; lia.
  - split; [apply pretty_N_char_dashless|done].
Qed.

Lemma pretty_N_go_length x s :
  (String.length s ≤ String.length (pretty_N_go x s))%nat.
Proof.
  revert s. induction (N.lt_wf_0 x) as [x _ IH]; intros s.
  destruct (decide (x = 0%N)) as [->|Hx]; [by rewrite pretty_N_go_0|].
  rewrite pretty_N_go_step by lia.
  etrans; [|apply IH; apply N.div_lt; lia]. simpl. lia.
Qed.

Lemma pretty_N_digits (x : N) :
  dashless (pretty x) ∧ pretty x ≠ EmptyString.
Proof.
  unfold pretty, pretty_N. destruct (decide (x = 0%N)) as [->|Hx].
  - split; [|done]. split; [done|exact I].
  - split; [by apply pretty_N_go_dashless|].
    rewrite pretty_N_go_step by lia. intros Hempty.
    pose proof (pretty_N_go_length (x `div` 10)
      (String (pretty_N_char (x `mod` 10)) EmptyString)) as Hlen.
    rewrite Hempty in Hlen. simpl in Hlen. lia.
Qed.

(** The rendering of an integer: digits, after a dash when negative. *)
Lemma pretty_Z_digits (z : Z) :
  ∃ d, dashless d ∧ d ≠ EmptyString ∧
       (pretty z = d ∨ pretty z = String "-" d).
Proof.
  destruct z as [|x|x].
  - exists "0"%string. split; [by split|]. split; [done|by left].
  - exists (pretty (N.pos x)).
    destruct (pretty_N_digits (N.pos x)) as [??]. split; [done|].
    split; [done|by left].
  - exists (pretty (N.pos x)).
    destruct (pretty_N_digits (N.pos x)) as [??]. split; [done|].
    split; [done|by right].
Qed.

Lemma dash_split a b a' b' :
  dashless a → dashless a' →
  a +:+ String "-" b = a' +:+ String "-" b' → a = a' ∧ b = b'.
Proof.
  revert a'. induction a as [|x a IH]; intros [|x' a']; simpl.
  - by intros _ _ [= ->].
  - by intros _ [Hx' _] [= <- _].
  - by intros [Hx _] _ [= -> _].
  - intros [_ Ha] [_ Ha'] [= -> Heq].
    destruct (IH a' Ha Ha' Heq) as [-> ->]. done.
Qed.

(** The key determines the cell. *)
Lemma cell_key_inj r c r' c' :
  cell_key r c = cell_key r' c' → r = r' ∧ c = c'.
Proof.
  unfold cell_key.
  destruct (pretty_Z_digits r) as (d & Hd & Hne & Hr).
  destruct (pretty_Z_digits r') as (d' & Hd' & Hne' & Hr').
  intros Heq.
  assert (pretty r = pretty r' ∧ pretty c = pretty c') as [Hrr Hcc].
  { destruct Hr as [Hr|Hr], Hr' as [Hr'|Hr'];
      rewrite Hr, Hr' in *; simpl in Heq.
    - by apply dash_split.
    - destruct d as [|x d]; [done|]. destruct Hd as [Hx _].
      simpl in Heq. by injection Heq as -> _.
    - destruct d' as [|x d']; [done|]. destruct Hd' as [Hx _].
      simpl in Heq. by injection Heq as <- _.
    - injection Heq as Heq. apply dash_split in Heq as [-> ->]; done. }
  split; by apply (inj pretty).
Qed.

Lemma key_of_inj k k' : key_of k = key_of k' → k = k'.
Proof.
  destruct k as [r c], k' as [r' c']. unfold key_of. simpl.
  by intros [-> ->]%cell_key_inj.
Qed.

Lemma key_of_ne k k' : k ≠ k' → key_of k ≠ key_of k'.
Proof. intros Hne Heq. by apply Hne, key_of_inj. Qed.

(** ** Arrays *)

Lemma array_get_Some {A} (l : list A) i x :
  array_get l i = Some x ↔ 0 ≤ i ∧ l !! Z.to_nat i = Some x.
Proof.
  unfold array_get. destruct (decide (0 ≤ i)) as [Hi|Hi].
  - split; [by intros ?|by intros [_ ?]].
  - split; [done|by intros [? _]].
Qed.

Lemma array_get_lt {A} (l : list A) i x :
  array_get l i = Some x → 0 ≤ i < Z.of_nat (length l).
Proof. rewrite array_get_Some. intros [? H%lookup_lt_Some]. lia. Qed.

Lemma array_get_in_range {A} (l : list A) i :
  0 ≤ i < Z.of_nat (length l) → is_Some (array_get l i).
Proof.
  intros [??]. unfold array_get. destruct (decide (0 ≤ i)); [|done].
  apply lookup_lt_is_Some. lia.
Qed.

Lemma grid_get_set_eq g r c x :
  is_Some (grid_get g r c) → grid_get (grid_set g r c x) r c = Some x.
Proof.
  unfold grid_get, grid_set. destruct (array_get g r) as [row|] eqn:Hr; [|by intros []].
  intros [y Hc]. apply array_get_Some in Hr as [? Hr], Hc as [? Hc].
  rewrite decide_True by done.
  unfold array_get. rewrite !decide_True by done.
  rewrite list_lookup_insert_eq by by eapply lookup_lt_Some.
  rewrite decide_True by done.
  apply list_lookup_insert_eq. by eapply lookup_lt_Some.
Qed.

Lemma grid_get_set_ne g r c x r' c' :
  (r, c) ≠ (r', c') → grid_get (grid_set g r c x) r' c' = grid_get g r' c'.
Proof.
  intros Hne. unfold grid_get, grid_set.
  destruct (array_get g r) as [row|] eqn:Hr; [|done].
  case_decide; [|done].
  apply array_get_Some in Hr as [? Hr].
  unfold array_get at 1 3. case_decide; [|done].
  destruct (decide (r = r')) as [<-|Hrr].
  - rewrite list_lookup_insert_eq by by eapply lookup_lt_Some.
    rewrite Hr. unfold array_get. case_decide; [|done].
    apply list_lookup_insert_ne. intros Heq. apply Hne. f_equal. lia.
  - rewrite list_lookup_insert_ne by lia. done.
Qed.

(** ** The shape check *)

Lemma is_single_char_true cell :
  is_single_char cell = true ↔ ∃ s, cell = CStr s ∧ len s = 1.
Proof.
  destruct cell as [s|]; simpl.
  - rewrite bool_decide_eq_true. split; [eauto|]. by intros (? & [= <-] & ?).
  - split; [done|]. by intros (? & ? & _).
Qed.

Lemma shape_bad_false g size : shape_bad g size = false ↔ shape_ok g size.
Proof.
  unfold shape_bad, shape_ok.
  rewrite orb_false_iff, negb_false_iff, bool_decide_eq_true.
  apply and_iff_compat_l.
  rewrite <- not_true_iff_false, existsb_exists, Forall_forall.
  split.
  - intros Hno row Hrow.
    destruct (decide (Z.of_nat (length row) = size)) as [Hlen|Hlen].
    + split; [done|]. apply Forall_forall. intros cell Hcell.
      apply is_single_char_true.
      destruct (is_single_char cell) eqn:Hc; [done|].
      exfalso. apply Hno. exists row. split; [by apply list_elem_of_In|].
      apply orb_true_iff. right. apply negb_true_iff.
      apply not_true_iff_false. rewrite forallb_forall. intros Hall.
      apply list_elem_of_In, Hall in Hcell. congruence.
    + exfalso. apply Hno. exists row. split; [by apply list_elem_of_In|].
      apply orb_true_iff. left. by rewrite bool_decide_eq_false_2.
  - intros Hall (row & Hrow & Hbad). apply list_elem_of_In, Hall in Hrow as [Hlen Hcells].
    apply orb_true_iff in Hbad as [Hbad|Hbad].
    + by rewrite bool_decide_eq_true_2 in Hbad.
    + apply negb_true_iff, not_true_iff_false in Hbad. apply Hbad.
      apply forallb_forall. intros cell Hcell.
      apply is_single_char_true. rewrite Forall_forall in Hcells.
      by apply Hcells, list_elem_of_In.
Qed.

Lemma shape_ok_get g size r c :
  shape_ok g size → in_grid size (r, c) →
  ∃ s, grid_get g r c = Some (CStr s) ∧ len s = 1.
Proof.
  intros [Hlen Hrows] [[??] [??]]. simpl in *. unfold grid_get.
  destruct (array_get_in_range g r) as [row Hrow]; [lia|]. rewrite Hrow.
  apply array_get_Some in Hrow as [_ Hrow].
  rewrite Forall_forall in Hrows.
  destruct (Hrows row) as [Hrl Hcells]; [by eapply list_elem_of_lookup_2|].
  destruct (array_get_in_range row c) as [cell Hcell]; [lia|]. rewrite Hcell.
  apply array_get_Some in Hcell as [_ Hcell].
  rewrite Forall_forall in Hcells.
  destruct (Hcells cell) as (s & -> & ?); [by eapply list_elem_of_lookup_2|].
  eauto.
Qed.

Lemma grid_get_in_grid g size r c :
  shape_ok g size → is_Some (grid_get g r c) → in_grid size (r, c).
Proof.
  intros [Hlen Hrows] [cell Hget]. unfold grid_get in Hget.
  destruct (array_get g r) as [row|] eqn:Hrow; [|done].
  pose proof (array_get_lt _ _ _ Hrow). pose proof (array_get_lt _ _ _ Hget).
  apply array_get_Some in Hrow as [_ Hrow].
  rewrite Forall_forall in Hrows.
  destruct (Hrows row) as [Hrl _]; [by eapply list_elem_of_lookup_2|].
  split; simpl; lia.
Qed.

Lemma shape_ok_set g size r c s :
  shape_ok g size → len s = 1 → shape_ok (grid_set g r c (CStr s)) size.
Proof.
  intros [Hlen Hrows] Hs. unfold grid_set.
  destruct (array_get g r) as [row|] eqn:Hrow; [|done].
  case_decide; [|done].
  apply array_get_Some in Hrow as [_ Hrow].
  split; [by rewrite length_insert|].
  apply Forall_insert; [done|].
  rewrite Forall_forall in Hrows.
  destruct (Hrows row) as [Hrl Hcells]; [by eapply list_elem_of_lookup_2|].
  split; [by rewrite length_insert|].
  apply Forall_insert; eauto.
Qed.

Lemma shape_ok_grid_ok g size : shape_ok g size → grid_ok g size.
Proof.
  intros [Hlen Hrows]. split; [done|].
  eapply Forall_impl; [exact Hrows|]. intros row [Hrl Hcells]. split; [done|].
  eapply Forall_impl; [exact Hcells|]. intros cell (s & -> & _). eauto.
Qed.

Lemma grid_ok_get g size r c :
  grid_ok g size → in_grid size (r, c) → ∃ s, grid_get g r c = Some (CStr s).
Proof.
  intros [Hlen Hrows] [[??] [??]]. simpl in *. unfold grid_get.
  destruct (array_get_in_range g r) as [row Hrow]; [lia|]. rewrite Hrow.
  apply array_get_Some in Hrow as [_ Hrow].
  rewrite Forall_forall in Hrows.
  destruct (Hrows row) as [Hrl Hcells]; [by eapply list_elem_of_lookup_2|].
  destruct (array_get_in_range row c) as [cell Hcell]; [lia|]. rewrite Hcell.
  apply array_get_Some in Hcell as [_ Hcell].
  rewrite Forall_forall in Hcells.
  destruct (Hcells cell) as (s & ->); [by eapply list_elem_of_lookup_2|].
  eauto.
Qed.

Lemma grid_ok_set g size r c s :
  grid_ok g size → grid_ok (grid_set g r c (CStr s)) size.
Proof.
  intros [Hlen Hrows]. unfold grid_set.
  destruct (array_get g r) as [row|] eqn:Hrow; [|done].
  case_decide; [|done].
  apply array_get_Some in Hrow as [_ Hrow].
  split; [by rewrite length_insert|].
  apply Forall_insert; [done|].
  rewrite Forall_forall in Hrows.
  destruct (Hrows row) as [Hrl Hcells]; [by eapply list_elem_of_lookup_2|].
  split; [by rewrite length_insert|].
  apply Forall_insert; eauto.
Qed.

(** ** The walk of one placement *)

Section Properties.
Context {case : CaseMapping}.

Lemma repaired_spells s ch :
  plain_letter ch →
  toUpperCase (repaired s ch) = toUpperCase (String ch EmptyString).
Proof. intros [_ Hup]. unfold repaired. case_decide; done. Qed.

Lemma repaired_length s ch :
  plain_letter ch → len s = 1 → len (repaired s ch) = 1.
Proof. intros [Hlen _] Hs. unfold repaired. case_decide; done. Qed.

Lemma elem_of_claims_letter r c dRow dCol rest k ch :
  (k, ch) ∈ claims_from r c dRow dCol rest → ch ∈ list_ascii_of_string rest.
Proof.
  revert r c. induction rest as [|a rest IH]; intros r c; simpl.
  - by intros ?%elem_of_nil.
  - intros [[= _ ->]|Hin]%elem_of_cons; [by left|]. right. by eapply IH.
Qed.

Lemma elem_of_claims_cells (k : Z * Z) (l : list ((Z * Z) * ascii)) :
  k ∈ l.*1 ↔ ∃ ch, (k, ch) ∈ l.
Proof.
  rewrite list_elem_of_fmap. split.
  - intros ([k' ch] & -> & ?). by exists ch.
  - intros [ch ?]. by exists (k, ch).
Qed.

(** The grid after the repair step of one iteration. *)
Lemma repair_step_get (g : Grid) r c s ch :
  grid_get g r c = Some (CStr s) →
  grid_get (if decide (toUpperCase s = toUpperCase (String ch EmptyString))
            then g
            else grid_set g r c (CStr (toUpperCase (String ch EmptyString))))
    r c = Some (CStr (repaired s ch)).
Proof.
  intros Hget. unfold repaired. case_decide; [done|].
  apply grid_get_set_eq. by rewrite Hget.
Qed.

(** What a walk that runs to its end has done: it claimed exactly its
    cells, none of which was claimed before, repaired each of them, and
    touched nothing else. *)
Lemma walk_inr w rest r c dRow dCol g occ g' occ' :
  walk w rest r c dRow dCol g occ = inr (g', occ') →
  occ ⊆ occ' ∧
  (∀ k ch, (k, ch) ∈ claims_from r c dRow dCol rest →
     occ !! key_of k = None ∧
     occ' !! key_of k = Some (w, toUpperCase (String ch EmptyString)) ∧
     ∃ s, grid_get g k.1 k.2 = Some (CStr s) ∧
          grid_get g' k.1 k.2 = Some (CStr (repaired s ch))) ∧
  (∀ k, k ∉ (claims_from r c dRow dCol rest).*1 →
     grid_get g' k.1 k.2 = grid_get g k.1 k.2 ∧
     occ' !! key_of k = occ !! key_of k) ∧
  NoDup (claims_from r c dRow dCol rest).*1.
Proof.
  revert r c g occ. induction rest as [|ch rest IH]; intros r c g occ; simpl.
  - intros [= <- <-]. split; [done|]. split; [|split; [done|constructor]].
    intros k ch' Hin. by apply elem_of_nil in Hin.
  - destruct (occ !! cell_key r c) as [ex|] eqn:Hocc; [done|].
    destruct (grid_get g r c) as [[s|]|] eqn:Hget; [|done|done].
    intros Hwalk. apply IH in Hwalk as (Hsub & Hcl & Hfr & Hnd).
    assert (Hhead : (r, c) ∉ (claims_from (r + dRow) (c + dCol) dRow dCol rest).*1).
    { intros [ch' Hin]%elem_of_claims_cells.
      apply Hcl in Hin as [Hnone _]. unfold key_of in Hnone. simpl in Hnone.
      by rewrite lookup_insert_eq in Hnone. }
    split; [|split; [|split]]; [| | |by constructor].
    + etrans; [|exact Hsub]. by apply insert_subseteq.
    + intros k ch' [[= -> ->]|Hin]%elem_of_cons.
      * split; [done|]. destruct (Hfr _ Hhead) as [Hg Ho]. split.
        { rewrite Ho. unfold key_of. simpl. by rewrite lookup_insert_eq. }
        exists s. split; [done|]. simpl in *. rewrite Hg.
        by apply repair_step_get.
      * destruct (Hcl _ _ Hin) as (Hnone & Hsome & s' & Hg1 & Hg').
        apply lookup_insert_None in Hnone as [Hnone Hne].
        split; [done|]. split; [done|]. exists s'. split; [|done].
        rewrite <- Hg1. destruct k as [kr kc]. simpl.
        destruct (decide _); [done|]. symmetry. apply grid_get_set_ne.
        intros [= -> ->]. by apply Hne.
    + intros k Hk. apply not_elem_of_cons in Hk as [Hne Hk].
      destruct (Hfr _ Hk) as [Hg Ho]. split.
      * rewrite Hg. destruct k as [kr kc]. simpl.
        destruct (decide _); [done|]. apply grid_get_set_ne. congruence.
      * rewrite Ho. apply lookup_insert_ne.
        apply (key_of_ne (r, c) k). congruence.
Qed.

Lemma plain_word_cons a rest :
  plain_word (String a rest) → plain_letter a ∧ plain_word rest.
Proof.
  intros Hw. split; [apply Hw; by left|].
  intros ch Hch. apply Hw. by right.
Qed.

(** The grid stays a grid of strings, whatever the letters are. *)
Lemma walk_grid_ok w rest r c dRow dCol g occ g' occ' size :
  grid_ok g size →
  walk w rest r c dRow dCol g occ = inr (g', occ') →
  grid_ok g' size.
Proof.
  revert r c g occ. induction rest as [|ch rest IH]; intros r c g occ Hok; simpl.
  - by intros [= <- <-].
  - destruct (occ !! cell_key r c); [done|].
    destruct (grid_get g r c) as [[s|]|]; [|done|done].
    apply IH. destruct (decide _); [done|].
    by apply grid_ok_set.
Qed.

(** Its entries stay one character long when the letters are plain. *)
Lemma walk_shape w rest r c dRow dCol g occ g' occ' size :
  plain_word rest →
  shape_ok g size →
  walk w rest r c dRow dCol g occ = inr (g', occ') →
  shape_ok g' size.
Proof.
  revert r c g occ.
  induction rest as [|ch rest IH]; intros r c g occ Hplain Hshape; simpl.
  - by intros [= <- <-].
  - apply plain_word_cons in Hplain as [[Hlen _] Hplain].
    destruct (occ !! cell_key r c); [done|].
    destruct (grid_get g r c) as [[s|]|]; [|done|done].
    apply IH; [done|]. destruct (decide _); [done|].
    by apply shape_ok_set.
Qed.

(** On a grid that already spells the word along the walk, the walk makes
    the same claims and changes nothing. *)
Lemma walk_noop w rest r c dRow dCol g occ g' occ' g2 :
  walk w rest r c dRow dCol g occ = inr (g', occ') →
  (∀ k ch, (k, ch) ∈ claims_from r c dRow dCol rest → spells g2 k ch) →
  walk w rest r c dRow dCol g2 occ = inr (g2, occ').
Proof.
  revert r c g occ. induction rest as [|ch rest IH]; intros r c g occ; simpl.
  - by intros [= <- <-] _.
  - destruct (occ !! cell_key r c); [done|].
    destruct (grid_get g r c) as [[s|]|]; [|done|done].
    intros Hwalk Hsp.
    destruct (Hsp (r, c) ch) as (s2 & Hg2 & Heq); [left|].
    simpl in Hg2. rewrite Hg2. rewrite decide_True by done.
    eapply IH; [exact Hwalk|]. intros k ch' Hin. apply Hsp. by right.
Qed.

(** A walk over cells of the grid that nobody claimed runs to its end. *)
Lemma walk_succeeds w rest r c dRow dCol g occ size :
  grid_ok g size →
  (∀ k, k ∈ (claims_from r c dRow dCol rest).*1 →
     in_grid size k ∧ occ !! key_of k = None) →
  NoDup (claims_from r c dRow dCol rest).*1 →
  ∃ st, walk w rest r c dRow dCol g occ = inr st.
Proof.
  revert r c g occ. induction rest as [|ch rest IH]; intros r c g occ Hshape Hfree Hnd; simpl.
  - eauto.
  - simpl in Hfree, Hnd. apply NoDup_cons in Hnd as [Hhead Hnd].
    destruct (Hfree (r, c)) as [Hin Hnone]; [left|].
    unfold key_of in Hnone. simpl in Hnone. rewrite Hnone.
    destruct (grid_ok_get g size r c Hshape Hin) as (s & ->).
    apply IH; [| |done].
    + destruct (decide _); [done|].
      by apply grid_ok_set.
    + intros k Hk. destruct (Hfree k) as [? ?]; [by right|].
      split; [done|]. rewrite lookup_insert_ne; [done|].
      apply (key_of_ne (r, c) k). by intros <-.
Qed.

(** ** One placement, then all of them *)

Lemma place_checks_pass size wu st sol :
  checks_pass size wu sol → place size wu st sol = walk_of sol st.
Proof.
  intros (Hc & Hw & Hb & Hl). unfold place.
  rewrite Hc, Hb, (bool_decide_eq_true_2 _ Hw), (bool_decide_eq_true_2 _ Hl).
  done.
Qed.

Lemma place_inr size wu st sol st' :
  place size wu st sol = inr st' ↔
  checks_pass size wu sol ∧ walk_of sol st = inr st'.
Proof.
  split; [|intros [Hc <-]; by apply place_checks_pass].
  unfold place, checks_pass.
  destruct (corner_start sol); [done|].
  destruct (bool_decide (word sol ∈ wu)) eqn:Hw; [|done].
  destruct (out_of_bounds sol size); [done|].
  destruct (bool_decide (expectedLength sol = len (word sol))) eqn:Hl; [|done].
  apply bool_decide_eq_true in Hw, Hl. done.
Qed.

Lemma place_all_app size wu pre post st :
  place_all size wu (pre ++ post) st =
  st' ← place_all size wu pre st; place_all size wu post st'.
Proof.
  revert st. induction pre as [|sol pre IH]; intros st; simpl; [done|].
  destruct (place size wu st sol) as [e|st1]; simpl; [done|]. apply IH.
Qed.

(** What a run over all placements that reaches its end has done. *)
Lemma place_all_inr size wu sols g occ g' occ' :
  place_all size wu sols (g, occ) = inr (g', occ') →
  occ ⊆ occ' ∧
  Forall (checks_pass size wu) sols ∧
  (∀ sol k ch, sol ∈ sols → (k, ch) ∈ visits sol →
     occ !! key_of k = None ∧
     occ' !! key_of k = Some (word sol, toUpperCase (String ch EmptyString)) ∧
     ∃ s, grid_get g k.1 k.2 = Some (CStr s) ∧
          grid_get g' k.1 k.2 = Some (CStr (repaired s ch))) ∧
  (∀ k, (∀ sol, sol ∈ sols → k ∉ cells sol) →
     grid_get g' k.1 k.2 = grid_get g k.1 k.2 ∧ occ' !! key_of k = occ !! key_of k) ∧
  NoDup (sols ≫= cells).
Proof.
  revert g occ. induction sols as [|sol sols IH]; intros g occ; simpl.
  - intros [= <- <-].
    split; [done|]. split; [constructor|]. split; [|split; [done|constructor]].
    intros sol k ch Hin. by apply elem_of_nil in Hin.
  - destruct (place size wu (g, occ) sol) as [e|[g1 occ1]] eqn:Hplace; [done|].
    simpl. intros Hrest.
    apply place_inr in Hplace as [Hchecks Hwalk].
    apply walk_inr in Hwalk as (W1 & W2 & W3 & W4).
    apply IH in Hrest as (P1 & P2 & P3 & P4 & P5). simpl in *.
    assert (Hdisj : ∀ k sol', k ∈ cells sol → sol' ∈ sols → k ∉ cells sol').
    { intros k sol' [ch Hk]%elem_of_claims_cells Hsol' [ch' Hk']%elem_of_claims_cells.
      destruct (W2 _ _ Hk) as (_ & Hsome & _).
      destruct (P3 _ _ _ Hsol' Hk') as (Hnone & _). congruence. }
    split; [by etrans|]. split; [by constructor|].
    split; [|split].
    + intros sol0 k ch [->|Hin]%elem_of_cons Hk.
      * destruct (W2 _ _ Hk) as (Hnone & Hsome & s & Hg & Hg1).
        split; [done|]. split; [by eapply lookup_weaken|].
        exists s. split; [done|]. rewrite <- Hg1. apply P4.
        intros sol' Hsol'. apply Hdisj; [|done].
        apply elem_of_claims_cells. eauto.
      * destruct (P3 _ _ _ Hin Hk) as (Hnone & Hsome & s & Hg1 & Hg').
        split; [by eapply lookup_weaken_None|]. split; [done|].
        exists s. split; [|done]. rewrite <- Hg1. symmetry. apply W3.
        intros Hk'. eapply Hdisj; [exact Hk'|exact Hin|].
        apply elem_of_claims_cells. eauto.
    + intros k Hk.
      destruct (P4 k) as [Hg Ho]; [intros sol' ?; apply Hk; by right|].
      destruct (W3 k) as [Hg1 Ho1]; [apply Hk; by left|].
      split; congruence.
    + apply NoDup_app. split; [done|]. split; [|done].
      intros k Hk (sol' & Hk' & Hsol')%list_elem_of_bind.
      by eapply Hdisj.
Qed.

Lemma place_all_grid_ok size wu sols g occ g' occ' :
  grid_ok g size →
  place_all size wu sols (g, occ) = inr (g', occ') →
  grid_ok g' size.
Proof.
  revert g occ. induction sols as [|sol sols IH]; intros g occ Hok; simpl.
  - by intros [= <- <-].
  - destruct (place size wu (g, occ) sol) as [e|[g1 occ1]] eqn:Hplace; [done|].
    simpl. apply IH.
    apply place_inr in Hplace as [_ Hwalk]. by eapply walk_grid_ok.
Qed.

Lemma place_all_shape size wu sols g occ g' occ' :
  Forall (λ sol, plain_word (word sol)) sols →
  shape_ok g size →
  place_all size wu sols (g, occ) = inr (g', occ') →
  shape_ok g' size.
Proof.
  revert g occ. induction sols as [|sol sols IH]; intros g occ Hplain Hshape; simpl.
  - by intros [= <- <-].
  - apply Forall_cons in Hplain as [Hsol Hplain].
    destruct (place size wu (g, occ) sol) as [e|[g1 occ1]] eqn:Hplace; [done|].
    simpl. apply IH; [done|].
    apply place_inr in Hplace as [_ Hwalk]. by eapply walk_shape.
Qed.

Lemma place_all_noop size wu sols g occ g' occ' g2 :
  place_all size wu sols (g, occ) = inr (g', occ') →
  (∀ sol k ch, sol ∈ sols → (k, ch) ∈ visits sol → spells g2 k ch) →
  place_all size wu sols (g2, occ) = inr (g2, occ').
Proof.
  revert g occ. induction sols as [|sol sols IH]; intros g occ; simpl.
  - by intros [= <- <-] _.
  - destruct (place size wu (g, occ) sol) as [e|[g1 occ1]] eqn:Hplace; [done|].
    simpl. intros Hrest Hsp.
    apply place_inr in Hplace as [Hchecks Hwalk].
    rewrite (place_checks_pass _ _ _ _ Hchecks). unfold walk_of in *. simpl in *.
    erewrite walk_noop; [|exact Hwalk|]; simpl.
    + eapply IH; [exact Hrest|]. intros sol' k ch Hin. apply Hsp. by right.
    + intros k ch. apply Hsp. by left.
Qed.

Lemma place_all_succeeds size wu sols g occ :
  grid_ok g size →
  Forall (checks_pass size wu) sols →
  (∀ k, k ∈ sols ≫= cells → in_grid size k ∧ occ !! key_of k = None) →
  NoDup (sols ≫= cells) →
  ∃ st, place_all size wu sols (g, occ) = inr st.
Proof.
  revert g occ. induction sols as [|sol sols IH]; intros g occ Hok Hchecks Hfree Hnd; simpl.
  - eauto.
  - apply Forall_cons in Hchecks as [Hc Hchecks]. simpl in Hfree, Hnd.
    apply NoDup_app in Hnd as (Hnd1 & Hdisj & Hnd2).
    rewrite (place_checks_pass _ _ _ _ Hc). unfold walk_of. simpl.
    destruct (walk_succeeds (word sol) (word sol) (startRow sol) (startCol sol)
      (Z.sgn (endRow sol - startRow sol)) (Z.sgn (endCol sol - startCol sol))
      g occ size) as [[g1 occ1] Hwalk]; [done| |done|].
    { intros k Hk. apply Hfree. apply elem_of_app. by left. }
    rewrite Hwalk. simpl.
    pose proof (walk_grid_ok _ _ _ _ _ _ _ _ _ _ _ Hok Hwalk) as Hok1.
    apply walk_inr in Hwalk as (_ & _ & W3 & _).
    apply IH; [done|done| |done].
    intros k Hk. destruct (Hfree k) as [? Hnone]; [apply elem_of_app; by right|].
    split; [done|]. destruct (W3 k) as [_ ->]; [|done].
    intros Hk'. by eapply Hdisj.
Qed.

(** ** Geometry of the walk *)

Lemma claims_from_lookup r c dRow dCol rest i k ch :
  claims_from r c dRow dCol rest !! i = Some (k, ch) →
  k = (r + Z.of_nat i * dRow, c + Z.of_nat i * dCol) ∧
  (i < String.length rest)%nat.
Proof.
  revert r c i. induction rest as [|a rest IH]; intros r c i; simpl; [done|].
  destruct i as [|i]; simpl.
  - intros [= <- <-]. split; [f_equal; lia|lia].
  - intros [-> ?]%IH. split; [f_equal; lia|lia].
Qed.

Lemma claims_from_length r c dRow dCol rest :
  length (claims_from r c dRow dCol rest) = String.length rest.
Proof.
  revert r c. induction rest as [|a rest IH]; intros r c; simpl; [done|].
  by rewrite IH.
Qed.

Lemma elem_of_cells sol k :
  k ∈ cells sol →
  ∃ i : Z, 0 ≤ i < len (word sol) ∧
    k = (startRow sol + i * Z.sgn (endRow sol - startRow sol),
         startCol sol + i * Z.sgn (endCol sol - startCol sol)).
Proof.
  intros [ch Hin]%elem_of_claims_cells.
  apply list_elem_of_lookup in Hin as [i Hi].
  apply claims_from_lookup in Hi as [-> Hlt].
  exists (Z.of_nat i). unfold len. split; [lia|done].
Qed.

(** A placement with in-bounds end points whose length is the one its
    coordinates imply, and which is a straight line, is walked inside the
    grid. *)
Lemma straight_in_grid size sol k :
  out_of_bounds sol size = false →
  expectedLength sol = len (word sol) →
  straight sol →
  k ∈ cells sol → in_grid size k.
Proof.
  unfold out_of_bounds, expectedLength, straight, in_grid.
  rewrite !orb_false_iff, !bool_decide_eq_false.
  intros Hb Hl Hs (i & Hi & ->)%elem_of_cells. simpl.
  rewrite <- Hl in Hi. clear Hl.
  destruct (Z.sgn_spec (endRow sol - startRow sol)) as [[? ->]|[[? ->]|[? ->]]];
  destruct (Z.sgn_spec (endCol sol - startCol sol)) as [[? ->]|[[? ->]|[? ->]]];
  lia.
Qed.

(** The cells of a walk are pairwise distinct as soon as the word fits the
    length check: a walk that does not move has a single cell. *)
Lemma cells_NoDup sol :
  expectedLength sol = len (word sol) → NoDup (cells sol).
Proof.
  intros Hl. apply NoDup_alt. intros i j k Hi Hj.
  unfold cells in *. rewrite list_lookup_fmap in Hi, Hj.
  destruct (visits sol !! i) as [[k1 c1]|] eqn:Hi'; [|done].
  destruct (visits sol !! j) as [[k2 c2]|] eqn:Hj'; [|done].
  simpl in *. injection Hi as ->. injection Hj as ->.
  apply claims_from_lookup in Hi' as [-> Hilt], Hj' as [Hk Hjlt].
  injection Hk as Hr Hc.
  unfold expectedLength, len in Hl.
  destruct (Z.sgn_spec (endRow sol - startRow sol)) as [[? Hsr]|[[? Hsr]|[? Hsr]]];
  destruct (Z.sgn_spec (endCol sol - startCol sol)) as [[? Hsc]|[[? Hsc]|[? Hsc]]];
  rewrite Hsr in Hr; rewrite Hsc in Hc; lia.
Qed.

(** ** The validator as a whole *)

Lemma validate_inr d size out :
  validateAndCorrectPuzzleData d size = inr out ↔
  shape_ok (grid d) size ∧
  ∃ g' occ',
    place_all size (wordsUsed d) (solution d) (grid d, ∅) = inr (g', occ') ∧
    out = {| grid := g'; solution := solution d; wordsUsed := wordsUsed d |}.
Proof.
  unfold validateAndCorrectPuzzleData. rewrite <- shape_bad_false.
  destruct (shape_bad (grid d) size); simpl.
  - split; [done|]. by intros [? _].
  - destruct (place_all size (wordsUsed d) (solution d) (grid d, ∅))
      as [e|[g' occ']]; simpl.
    + split; [done|]. by intros (_ & ? & ? & ? & _).
    + split.
      * intros [= <-]. eauto.
      * by intros (_ & ? & ? & [= <- <-] & ->).
Qed.

Lemma validate_shape_error d size :
  ¬ shape_ok (grid d) size →
  validateAndCorrectPuzzleData d size = inl (ShapeError size).
Proof.
  intros Hbad. unfold validateAndCorrectPuzzleData.
  destruct (shape_bad (grid d) size) eqn:Hs; [done|].
  by apply shape_bad_false in Hs.
Qed.

(** Every successful validation returns a grid in which each visited
    cell is the repair of the input cell.  When the letters of the
    words are plain, the grid spells each word along its walk and the
    returned puzzle validates to itself. *)
Lemma validate_inr_repairs d size out :
  validateAndCorrectPuzzleData d size = inr out →
  (∀ sol k ch, sol ∈ solution d → (k, ch) ∈ visits sol →
     ∃ s, grid_get (grid d) k.1 k.2 = Some (CStr s) ∧
          grid_get (grid out) k.1 k.2 = Some (CStr (repaired s ch))) ∧
  (Forall (λ sol, plain_word (word sol)) (solution d) →
   (∀ sol k ch, sol ∈ solution out → (k, ch) ∈ visits sol →
      spells (grid out) k ch) ∧
   validateAndCorrectPuzzleData out size = inr out).
Proof.
  intros (Hshape & g' & occ' & Hrun & ->)%validate_inr. simpl.
  pose proof (place_all_inr _ _ _ _ _ _ _ Hrun) as (_ & _ & P3 & _ & _).
  split.
  - intros sol k ch Hsol Hk.
    destruct (P3 _ _ _ Hsol Hk) as (_ & _ & s & Hg & Hg'). eauto.
  - intros Hplain.
    assert (Hsp : ∀ sol k ch, sol ∈ solution d → (k, ch) ∈ visits sol →
                  spells g' k ch).
    { intros sol k ch Hsol Hk.
      destruct (P3 _ _ _ Hsol Hk) as (_ & _ & s & _ & Hg').
      exists (repaired s ch). split; [done|]. apply repaired_spells.
      rewrite Forall_forall in Hplain. apply (Hplain sol Hsol).
      by eapply elem_of_claims_letter. }
    split; [done|].
    apply validate_inr. simpl. split; [by eapply place_all_shape|].
    exists g', occ'. split; [|done]. by eapply place_all_noop.
Qed.

(** A well-shaped candidate whose placements pass their checks, are
    straight lines and do not intersect is accepted. *)
Lemma validate_succeeds d size :
  shape_ok (grid d) size →
  Forall (λ sol, checks_pass size (wordsUsed d) sol ∧ straight sol)
    (solution d) →
  no_intersections (solution d) →
  ∃ out, validateAndCorrectPuzzleData d size = inr out.
Proof.
  intros Hshape Hsols Hnd.
  destruct (place_all_succeeds size (wordsUsed d) (solution d) (grid d) ∅)
    as [[g' occ'] Hrun]; [by apply shape_ok_grid_ok| | |done|].
  - eapply Forall_impl; [exact Hsols|]. by intros sol [? _].
  - intros k (sol & Hk & Hsol)%list_elem_of_bind. split; [|done].
    rewrite Forall_forall in Hsols.
    destruct (Hsols _ Hsol) as [(_ & _ & Hb & Hl) Hst].
    by eapply straight_in_grid.
  - eexists. apply validate_inr. eauto.
Qed.

(** X6. A candidate that passes every check of the validator -- the
    grid has the expected shape, no placement starts in the corner, every
    placed word is listed in [wordsUsed], the end points are in bounds,
    each placement is a straight line of the length of its word, and no
    two placements meet -- and whose words are made of plain letters is
    accepted; every cell a placement visits holds, in the returned grid,
    the repair of the input cell (the input cell when it spells the
    letter up to case, the upper-case letter otherwise), so the grid
    spells each word along its cells; and validating the returned puzzle
    returns it unchanged. *)
Theorem repair_is_idempotent (d : PuzzleData) (size : Z) :
  shape_ok (grid d) size →
  Forall (λ sol, checks_pass size (wordsUsed d) sol ∧ straight sol ∧
                 plain_word (word sol)) (solution d) →
  no_intersections (solution d) →
  ∃ out,
    validateAndCorrectPuzzleData d size = inr out ∧
    (∀ sol k ch, sol ∈ solution d → (k, ch) ∈ visits sol →
       ∃ s, grid_get (grid d) k.1 k.2 = Some (CStr s) ∧
            grid_get (grid out) k.1 k.2 = Some (CStr (repaired s ch))) ∧
    (∀ sol k ch, sol ∈ solution out → (k, ch) ∈ visits sol →
       spells (grid out) k ch) ∧
    validateAndCorrectPuzzleData out size = inr out.
Proof.
  intros Hshape Hsols Hnd.
  destruct (validate_succeeds d size Hshape) as [out Hout]; [|done|].
  { eapply Forall_impl; [exact Hsols|]. by intros sol (? & ? & _). }
  exists out. split; [done|].
  destruct (validate_inr_repairs d size out Hout) as [Hrep Hfix].
  split; [done|]. apply Hfix.
  eapply Forall_impl; [exact Hsols|]. by intros sol (_ & _ & ?).
Qed.

(** C5. A grid that is not [size] rows of [size] one-character strings
    makes the validator fail with the shape error, whatever the
    placements and [wordsUsed] are: no placement is looked at. *)
Theorem bad_shape_rejected_first (g : Grid) (sols : list Solution)
    (wu : list string) (size : Z) :
  ¬ shape_ok g size →
  validateAndCorrectPuzzleData
    {| grid := g; solution := sols; wordsUsed := wu |} size
  = inl (ShapeError size).
Proof. intros Hbad. by apply validate_shape_error. Qed.

(** C10. With an empty solution list and a well-shaped grid the validator
    returns the candidate as it is, whatever [wordsUsed] holds. *)
Theorem empty_solution_accepted (g : Grid) (wu : list string) (size : Z) :
  shape_ok g size →
  validateAndCorrectPuzzleData
    {| grid := g; solution := []; wordsUsed := wu |} size
  = inr {| grid := g; solution := []; wordsUsed := wu |}.
Proof.
  intros Hshape. apply validate_inr. simpl. split; [done|]. eauto.
Qed.

(** ** Failures *)

(** A walk that reaches, over free cells of the grid, a cell somebody
    claimed stops there with the intersection error. *)
Lemma walk_hits w rest r c dRow dCol g occ size cs1 k ch cs2 ex :
  grid_ok g size →
  claims_from r c dRow dCol rest = cs1 ++ (k, ch) :: cs2 →
  (∀ k', k' ∈ cs1.*1 → in_grid size k' ∧ occ !! key_of k' = None) →
  NoDup cs1.*1 →
  occ !! key_of k = Some ex →
  walk w rest r c dRow dCol g occ
  = inl (IntersectionError w ex.1 (k.1 + 1) (k.2 + 1)).
Proof.
  revert r c g occ cs1.
  induction rest as [|a rest IH]; intros r c g occ cs1 Hshape Hcl Hfree Hnd Hocc; simpl in *.
  - by destruct cs1.
  - destruct cs1 as [|[k1 a1] cs1]; simpl in *.
    + injection Hcl as <- <- _. unfold key_of in Hocc. simpl in Hocc.
      by rewrite Hocc.
    + injection Hcl as <- <- Hcl.
      apply NoDup_cons in Hnd as [Hhead Hnd].
      destruct (Hfree (r, c)) as [Hin Hnone]; [left|].
      unfold key_of in Hnone. simpl in Hnone. rewrite Hnone.
      destruct (grid_ok_get g size r c Hshape Hin) as (s & ->).
      eapply IH; [|exact Hcl| |done|].
      * destruct (decide _); [done|]. by apply grid_ok_set.
      * intros k' Hk'. destruct (Hfree k') as [? ?]; [by right|].
        split; [done|]. rewrite lookup_insert_ne; [done|].
        apply (key_of_ne (r, c) k'). by intros <-.
      * rewrite lookup_insert_ne; [done|]. intros Heq.
        rewrite <- Heq in Hocc. congruence.
Qed.

Lemma validate_place_all_inl d size e :
  shape_ok (grid d) size →
  place_all size (wordsUsed d) (solution d) (grid d, ∅) = inl e →
  validateAndCorrectPuzzleData d size = inl e.
Proof.
  intros Hshape%shape_bad_false Hrun. unfold validateAndCorrectPuzzleData.
  rewrite Hshape. simpl. by rewrite Hrun.
Qed.

(** The run over the placements fails at the first placement that fails. *)
Lemma place_all_inl size wu pre sol post st st' e :
  place_all size wu pre st = inr st' →
  place size wu st' sol = inl e →
  place_all size wu (pre ++ sol :: post) st = inl e.
Proof.
  intros Hpre Hsol. rewrite place_all_app, Hpre. simpl. by rewrite Hsol.
Qed.

(** No candidate in which two walks share a cell is ever accepted. *)
Lemma accepted_no_intersections d size out :
  validateAndCorrectPuzzleData d size = inr out →
  no_intersections (solution d).
Proof.
  intros (_ & g' & occ' & Hrun & _)%validate_inr.
  by apply place_all_inr in Hrun as (_ & _ & _ & _ & ?).
Qed.

(** The only errors of a walk: the intersection error, which names the
    word being walked, and the runtime's. *)
Lemma walk_inl w rest r c dRow dCol g occ e :
  walk w rest r c dRow dCol g occ = inl e →
  e = TypeError ∨ ∃ ex r' c', e = IntersectionError w ex r' c'.
Proof.
  revert r c g occ. induction rest as [|ch rest IH]; intros r c g occ; simpl; [done|].
  destruct (occ !! cell_key r c) as [ex|]; [intros [= <-]; eauto|].
  destruct (grid_get g r c) as [[s|]|]; [|intros [= <-]; eauto..].
  apply IH.
Qed.

(** Which check a failed placement failed. *)
Lemma place_inl size wu st sol e :
  place size wu st sol = inl e →
  (corner_start sol = true ∧ e = CornerError (word sol)) ∨
  ((word sol ∉ wu) ∧ e = NotInWordsUsed (word sol)) ∨
  (out_of_bounds sol size = true ∧ e = OutOfBounds (word sol)) ∨
  (expectedLength sol ≠ len (word sol) ∧
   e = LengthMismatch (word sol) (expectedLength sol) (len (word sol))) ∨
  (checks_pass size wu sol ∧ walk_of sol st = inl e).
Proof.
  unfold place, checks_pass.
  destruct (corner_start sol); [intros [= <-]; eauto|].
  destruct (bool_decide (word sol ∈ wu)) eqn:Hw; simpl;
    [apply bool_decide_eq_true in Hw
    |apply bool_decide_eq_false in Hw; intros [= <-]; eauto].
  destruct (out_of_bounds sol size); [intros [= <-]; eauto 6|].
  destruct (bool_decide (expectedLength sol = len (word sol))) eqn:Hl; simpl;
    [apply bool_decide_eq_true in Hl
    |apply bool_decide_eq_false in Hl; intros [= <-]; eauto 8].
  intros Hwalk. do 4 right. done.
Qed.

(** A failed run failed at one placement, after the ones before it. *)
Lemma place_all_inl_inv size wu sols st e :
  place_all size wu sols st = inl e →
  ∃ pre sol post st',
    sols = pre ++ sol :: post ∧
    place_all size wu pre st = inr st' ∧
    place size wu st' sol = inl e.
Proof.
  revert st. induction sols as [|sol sols IH]; intros st; simpl; [done|].
  destruct (place size wu st sol) as [e'|st1] eqn:Hplace; simpl.
  - intros [= <-]. by exists [], sol, sols, st.
  - intros (pre & sol' & post & st' & -> & Hpre & Hsol)%IH.
    exists (sol :: pre), sol', post, st'. simpl. rewrite Hplace. simpl. done.
Qed.

Lemma validate_inl d size e :
  validateAndCorrectPuzzleData d size = inl e →
  (¬ shape_ok (grid d) size ∧ e = ShapeError size) ∨
  (shape_ok (grid d) size ∧
   place_all size (wordsUsed d) (solution d) (grid d, ∅) = inl e).
Proof.
  unfold validateAndCorrectPuzzleData.
  destruct (shape_bad (grid d) size) eqn:Hshape; simpl.
  - intros [= <-]. left. split; [|done].
    intros Hok%shape_bad_false. congruence.
  - apply shape_bad_false in Hshape.
    destruct (place_all size (wordsUsed d) (solution d) (grid d, ∅)) as [e'|st];
      simpl; [|done].
    intros [= <-]. by right.
Qed.

(** The corner error is raised for placements that start in the corner
    only. *)
Lemma corner_error_inv d size w :
  validateAndCorrectPuzzleData d size = inl (CornerError w) →
  ∃ sol, sol ∈ solution d ∧ startRow sol = 0 ∧ startCol sol = 0 ∧
         word sol = w.
Proof.
  intros [[_ [=]]|[_ Hrun]]%validate_inl.
  apply place_all_inl_inv in Hrun as (pre & sol & post & st' & Hsol & _ & Hplace).
  exists sol. split; [rewrite Hsol; apply elem_of_app; right; by left|].
  apply place_inl in Hplace
    as [[Hc [= ->]]|[[_ [=]]|[[_ [=]]|[[_ [=]]|[_ Hwalk]]]]].
  - unfold corner_start in Hc. apply andb_true_iff in Hc as [Hr Hc].
    by apply bool_decide_eq_true in Hr, Hc.
  - by apply walk_inl in Hwalk as [[=]|(? & ? & ? & [=])].
Qed.

(** C3. When the validation walk comes to a cell that an earlier
    placement has claimed -- the placements before [q] were walked
    without error, [q] passed its checks, and [k] is the first cell of
    the walk of [q] that an earlier placement [p] visited, the cells
    before it lying in the grid -- the validator fails with the
    intersection error that names the word of [q], the word of [p] and
    the cell in 1-indexed coordinates. *)
Theorem intersection_reported (d : PuzzleData) (size : Z)
    (pre post : list Solution) (p q : Solution) (st : State)
    (cs1 cs2 : list ((Z * Z) * ascii)) (k : Z * Z) (ch : ascii) :
  shape_ok (grid d) size →
  solution d = pre ++ q :: post →
  place_all size (wordsUsed d) pre (grid d, ∅) = inr st →
  checks_pass size (wordsUsed d) q →
  visits q = cs1 ++ (k, ch) :: cs2 →
  (∀ k', k' ∈ cs1.*1 → in_grid size k' ∧ ∀ p', p' ∈ pre → k' ∉ cells p') →
  p ∈ pre → k ∈ cells p →
  validateAndCorrectPuzzleData d size
  = inl (IntersectionError (word q) (word p) (k.1 + 1) (k.2 + 1)).
Proof.
  intros Hshape Hsol Hpre Hq Hvis Hfree Hp Hk.
  destruct st as [g1 occ1].
  pose proof (place_all_grid_ok _ _ _ _ _ _ _
    (shape_ok_grid_ok _ _ Hshape) Hpre) as Hshape1.
  apply place_all_inr in Hpre as Hinv. destruct Hinv as (_ & _ & P3 & P4 & _).
  apply elem_of_claims_cells in Hk as [chp Hk].
  destruct (P3 _ _ _ Hp Hk) as (_ & Hocc & _).
  apply validate_place_all_inl; [done|]. rewrite Hsol.
  eapply place_all_inl; [exact Hpre|].
  rewrite (place_checks_pass _ _ _ _ Hq). unfold walk_of. simpl.
  apply (walk_hits _ _ _ _ _ _ _ _ size cs1 k ch cs2
           (word p, toUpperCase (String chp EmptyString)));
    [exact Hshape1|exact Hvis| | |exact Hocc].
  - intros k' Hk'. destruct (Hfree k' Hk') as [Hin Hno]. split; [done|].
    destruct (P4 k' Hno) as [_ ->]. done.
  - destruct Hq as (_ & _ & _ & Hl). apply cells_NoDup in Hl.
    unfold cells in Hl. rewrite Hvis, fmap_app in Hl.
    by apply NoDup_app in Hl as [? _].
Qed.

(** A placement that starts in the corner stops the run with the corner
    error as soon as it is reached. *)
Lemma place_corner size wu st sol :
  startRow sol = 0 → startCol sol = 0 →
  place size wu st sol = inl (CornerError (word sol)).
Proof.
  intros Hr Hc. unfold place, corner_start.
  by rewrite (bool_decide_eq_true_2 _ Hr), (bool_decide_eq_true_2 _ Hc).
Qed.

Lemma place_not_used size wu st sol :
  word sol ∉ wu →
  place size wu st sol =
  inl (if corner_start sol then CornerError (word sol)
       else NotInWordsUsed (word sol)).
Proof.
  intros Hw. unfold place. destruct (corner_start sol); [done|].
  by rewrite (bool_decide_eq_false_2 _ Hw).
Qed.

(** A failing placement makes the run fail, whatever is around it. *)
Lemma place_all_fails size wu pre sol post st :
  (∀ st', ∃ e, place size wu st' sol = inl e) →
  ∃ e, place_all size wu (pre ++ sol :: post) st = inl e.
Proof.
  intros Hsol. rewrite place_all_app.
  destruct (place_all size wu pre st) as [e|st'] eqn:Hpre; simpl; [eauto|].
  destruct (Hsol st') as [e ->]. eauto.
Qed.

Lemma validate_fails d size pre sol post :
  solution d = pre ++ sol :: post →
  (∀ st', ∃ e, place size (wordsUsed d) st' sol = inl e) →
  ∃ e, validateAndCorrectPuzzleData d size = inl e.
Proof.
  intros Hsol Hfail. unfold validateAndCorrectPuzzleData.
  destruct (shape_bad (grid d) size); simpl; [eauto|].
  rewrite Hsol.
  destruct (place_all_fails size (wordsUsed d) pre sol post (grid d, ∅) Hfail)
    as [e ->]. eauto.
Qed.

(** C4, as the code has it.  A candidate with a placement that starts at
    row 0 and column 0 is never accepted; the error is the corner error
    naming that word when the grid passes the shape check and every
    placement listed before it is walked without error.  The check looks
    at both coordinates: a placement with a non-zero start row or a
    non-zero start column passes it, and the corner error is raised for
    a placement that starts at row 0 and column 0 only. *)
Theorem corner_start_rejected (d : PuzzleData) (size : Z)
    (pre post : list Solution) (sol : Solution) :
  solution d = pre ++ sol :: post →
  startRow sol = 0 → startCol sol = 0 →
  (∃ e, validateAndCorrectPuzzleData d size = inl e) ∧
  (shape_ok (grid d) size →
   (∃ st, place_all size (wordsUsed d) pre (grid d, ∅) = inr st) →
   validateAndCorrectPuzzleData d size = inl (CornerError (word sol))) ∧
  (∀ sol', startRow sol' ≠ 0 ∨ startCol sol' ≠ 0 → corner_start sol' = false) ∧
  (∀ w, validateAndCorrectPuzzleData d size = inl (CornerError w) →
     ∃ sol', sol' ∈ solution d ∧ startRow sol' = 0 ∧ startCol sol' = 0 ∧
             word sol' = w).
Proof.
  intros Hsol Hr Hc. split; [|split; [|split]]; [| | |apply corner_error_inv].
  - eapply validate_fails; [exact Hsol|]. intros st'.
    eexists. by apply place_corner.
  - intros Hshape [st Hpre]. apply validate_place_all_inl; [done|].
    rewrite Hsol. eapply place_all_inl; [exact Hpre|]. by apply place_corner.
  - intros sol' Hne. unfold corner_start. apply andb_false_iff.
    rewrite !bool_decide_eq_false. tauto.
Qed.

(** C7, as the code has it.  A candidate with a placement whose word is
    not in [wordsUsed] is never accepted; the error names that word when
    the grid passes the shape check and every placement listed before it
    is walked without error: it is the corner error if the placement
    also starts in the corner, the cross-reference error otherwise. *)
Theorem unlisted_word_rejected (d : PuzzleData) (size : Z)
    (pre post : list Solution) (sol : Solution) :
  solution d = pre ++ sol :: post →
  word sol ∉ wordsUsed d →
  (∃ e, validateAndCorrectPuzzleData d size = inl e) ∧
  (shape_ok (grid d) size →
   (∃ st, place_all size (wordsUsed d) pre (grid d, ∅) = inr st) →
   ∃ e, validateAndCorrectPuzzleData d size = inl e ∧ names e (word sol) ∧
        e = if corner_start sol then CornerError (word sol)
            else NotInWordsUsed (word sol)).
Proof.
  intros Hsol Hw. split.
  - eapply validate_fails; [exact Hsol|]. intros st'.
    eexists. by apply place_not_used.
  - intros Hshape [st Hpre]. eexists. split; [|split; [|done]].
    + apply validate_place_all_inl; [done|].
      rewrite Hsol. eapply place_all_inl; [exact Hpre|]. by apply place_not_used.
    + by destruct (corner_start sol).
Qed.

(** ** The retry loop *)

Lemma terminal_message_text :
  terminal_message =
  "The model failed to generate a valid puzzle after 3 attempts. This can happen if words are too long for the grid size. Please try using a larger grid or shorter words."%string.
Proof. by vm_compute. Qed.

(** The loop sends at most one request per value [attempt] takes. *)
Lemma attempts_requests n attempt generator req lastError requests0 console0 :
  (requests (attempts n attempt generator req lastError requests0 console0)
   ≤ requests0 + n)%nat.
Proof.
  revert attempt lastError requests0 console0.
  induction n as [|n IH]; intros attempt lastError requests0 console0; simpl; [lia|].
  destruct (attempt_body _ _); simpl; [|lia].
  destruct (decide _); simpl; [lia|].
  etrans; [apply IH|lia].
Qed.

(** The loop looks at the responses to its own requests only. *)
Lemma attempts_ext n attempt generator generator' req lastError requests0 console0 :
  (∀ i, (requests0 < i ≤ requests0 + n)%nat → generator' req i = generator req i) →
  attempts n attempt generator' req lastError requests0 console0
  = attempts n attempt generator req lastError requests0 console0.
Proof.
  revert attempt lastError requests0 console0.
  induction n as [|n IH]; intros attempt lastError requests0 console0 Hext; simpl; [done|].
  rewrite Hext by lia.
  destruct (attempt_body _ _); [|done].
  destruct (decide _); [done|]. apply IH. intros i ?. apply Hext. lia.
Qed.

(** C6. [generateWordSearch] sends at most three requests, and what a
    fourth would have been answered does not matter; an attempt that
    fails, for whatever reason, is followed by the next one as long as
    fewer than three were made, so the first attempt that succeeds, after
    failures only, gives the result; when all three fail the call ends
    after the third with the terminal error, whose message gives the
    count and the advice. *)
Theorem retries_are_bounded (generator : Request → nat → Response)
    (words : list string) (size : Z) (directions : list Direction) :
  let req := mkRequest words size directions in
  let o := generateWordSearch generator words size directions in
  (requests o ≤ MAX_RETRIES)%nat ∧
  (∀ generator',
     (∀ i, (1 ≤ i ≤ MAX_RETRIES)%nat → generator' req i = generator req i) →
     generateWordSearch generator' words size directions = o) ∧
  (∀ i data, (1 ≤ i ≤ MAX_RETRIES)%nat →
     (∀ j, (1 ≤ j < i)%nat → failed (generator req j) size) →
     attempt_body (generator req i) size = inr data →
     result o = inr data ∧ requests o = i) ∧
  ((∀ i, (1 ≤ i ≤ MAX_RETRIES)%nat → failed (generator req i) size) →
   result o = inl terminal_message ∧ requests o = MAX_RETRIES ∧
   ∃ e, last (console o) = Some (AllFailed (Some e))) ∧
  terminal_message =
  "The model failed to generate a valid puzzle after 3 attempts. This can happen if words are too long for the grid size. Please try using a larger grid or shorter words."%string.
Proof.
  intros req o. split; [|split; [|split; [|split]]].
  - apply (attempts_requests MAX_RETRIES 1 generator req None 0%nat []).
  - intros generator' Hext. apply attempts_ext. intros i ?. apply Hext. lia.
  - intros i data Hi Hfail Hok. subst o. unfold generateWordSearch, MAX_RETRIES in *.
    fold req. simpl.
    destruct (decide (i = 1%nat)) as [->|?]; [by rewrite Hok|].
    destruct (Hfail 1%nat) as [e1 ->]; [lia|]. simpl.
    destruct (decide (i = 2%nat)) as [->|?]; [by rewrite Hok|].
    destruct (Hfail 2%nat) as [e2 ->]; [lia|]. simpl.
    assert (i = 3%nat) as -> by lia. by rewrite Hok.
  - intros Hfail. subst o. unfold generateWordSearch, MAX_RETRIES in *.
    fold req. simpl.
    destruct (Hfail 1%nat) as [e1 ->]; [lia|].
    destruct (Hfail 2%nat) as [e2 ->]; [lia|].
    destruct (Hfail 3%nat) as [e3 ->]; [lia|]. simpl. eauto.
  - apply terminal_message_text.
Qed.

(** ** The store-based validator *)

Lemma Heap_get_rows_of (σ : Heap.Store) (cg : list positive) r c :
  (∀ l, l ∈ cg → is_Some (σ !! l)) →
  Heap.get σ cg r c = grid_get (Heap.rows_of σ cg) r c.
Proof.
  intros Hwf. unfold Heap.get, grid_get, Heap.rows_of, array_get.
  destruct (decide (0 ≤ r)) as [Hr|Hr]; [|done].
  rewrite list_lookup_fmap.
  destruct (cg !! Z.to_nat r) as [l|] eqn:Hl; [|done]. simpl.
  destruct (Hwf l) as [row ->]; [by eapply list_elem_of_lookup_2|]. done.
Qed.

Lemma Heap_set_rows_of (σ : Heap.Store) (cg : list positive) r c x :
  NoDup cg → (∀ l, l ∈ cg → is_Some (σ !! l)) →
  Heap.rows_of (Heap.set σ cg r c x) cg = grid_set (Heap.rows_of σ cg) r c x.
Proof.
  intros Hnd Hwf. unfold Heap.set, grid_set, Heap.rows_of, array_get.
  destruct (decide (0 ≤ r)) as [Hr|Hr]; [|done].
  rewrite list_lookup_fmap.
  destruct (cg !! Z.to_nat r) as [l|] eqn:Hl; [|done]. simpl.
  destruct (Hwf l) as [row Hrow]; [by eapply list_elem_of_lookup_2|].
  rewrite Hrow. simpl. destruct (decide (0 ≤ c)) as [Hc|Hc]; [|done].
  apply list_eq. intros i. rewrite list_lookup_fmap.
  destruct (decide (i = Z.to_nat r)) as [->|Hne].
  - rewrite Hl. simpl. rewrite lookup_insert_eq. simpl.
    rewrite list_lookup_insert_eq; [done|].
    rewrite length_fmap. by eapply lookup_lt_Some.
  - rewrite list_lookup_insert_ne by done. rewrite list_lookup_fmap.
    destruct (cg !! i) as [l'|] eqn:Hl'; [|done]. simpl.
    rewrite lookup_insert_ne; [done|]. intros <-.
    apply Hne. symmetry. by eapply NoDup_lookup.
Qed.

Lemma Heap_set_frame (σ : Heap.Store) (cg : list positive) r c x l :
  l ∉ cg → Heap.set σ cg r c x !! l = σ !! l.
Proof.
  intros Hl. unfold Heap.set.
  destruct (array_get cg r) as [l'|] eqn:Hl'; [|done].
  destruct (σ !! l'); [|done]. destruct (decide (0 ≤ c)) as [Hc|Hc]; [|done].
  apply lookup_insert_ne. intros <-. apply Hl.
  apply array_get_Some in Hl' as [_ Hl']. by eapply list_elem_of_lookup_2.
Qed.

Lemma Heap_set_is_Some (σ : Heap.Store) (cg : list positive) r c x l :
  is_Some (σ !! l) → is_Some (Heap.set σ cg r c x !! l).
Proof.
  intros Hl. unfold Heap.set.
  destruct (array_get cg r) as [l'|]; [|done].
  destruct (σ !! l') eqn:?; [|done]. destruct (decide (0 ≤ c)) as [Hc|Hc]; [|done].
  rewrite lookup_insert_is_Some. destruct (decide (l' = l)); eauto.
Qed.


Lemma Heap_simulates_here cg (σ : Heap.Store) e :
  Heap_simulates cg σ (σ, inl e) (inl e).
Proof. by repeat split. Qed.

Lemma Heap_simulates_after cg (σ σ1 : Heap.Store) h v :
  (∀ l, l ∉ cg → σ1 !! l = σ !! l) →
  (∀ l, is_Some (σ !! l) → is_Some (σ1 !! l)) →
  Heap_simulates cg σ1 h v → Heap_simulates cg σ h v.
Proof.
  intros Hfr Hdom (Hfr1 & Hdom1 & Hres). split; [|split; [|done]].
  - intros l Hl. rewrite Hfr1 by done. by apply Hfr.
  - intros l Hl. by apply Hdom1, Hdom.
Qed.

Lemma Heap_walk_simulates w rest r c dRow dCol cg (σ : Heap.Store) occ :
  NoDup cg → (∀ l, l ∈ cg → is_Some (σ !! l)) →
  Heap_simulates cg σ (Heap.walk w rest r c dRow dCol cg σ occ)
    (walk w rest r c dRow dCol (Heap.rows_of σ cg) occ).
Proof.
  intros Hnd. revert r c σ occ.
  induction rest as [|ch rest IH]; intros r c σ occ Hwf; simpl.
  - by repeat split.
  - destruct (occ !! cell_key r c) as [ex|]; [apply Heap_simulates_here|].
    rewrite (Heap_get_rows_of _ _ _ _ Hwf).
    destruct (grid_get (Heap.rows_of σ cg) r c) as [[s|]|];
      [|apply Heap_simulates_here..].
    destruct (decide (toUpperCase s = toUpperCase (String ch EmptyString)));
      [by apply IH|].
    rewrite <- (Heap_set_rows_of _ _ _ _ _ Hnd Hwf).
    eapply Heap_simulates_after; [| |apply IH].
    + intros l Hl. by apply Heap_set_frame.
    + intros l Hl. by apply Heap_set_is_Some.
    + intros l Hl. by apply Heap_set_is_Some, Hwf.
Qed.

Lemma Heap_place_simulates size wu cg (σ : Heap.Store) occ sol :
  NoDup cg → (∀ l, l ∈ cg → is_Some (σ !! l)) →
  Heap_simulates cg σ (Heap.place size wu cg σ occ sol)
    (place size wu (Heap.rows_of σ cg, occ) sol).
Proof.
  intros Hnd Hwf. unfold Heap.place, place.
  destruct (corner_start sol); [apply Heap_simulates_here|].
  destruct (bool_decide (word sol ∈ wu)); [|apply Heap_simulates_here].
  destruct (out_of_bounds sol size); [apply Heap_simulates_here|].
  destruct (bool_decide (expectedLength sol = len (word sol)));
    [|apply Heap_simulates_here].
  by apply Heap_walk_simulates.
Qed.

Lemma Heap_place_all_simulates size wu cg sols (σ : Heap.Store) occ :
  NoDup cg → (∀ l, l ∈ cg → is_Some (σ !! l)) →
  Heap_simulates cg σ (Heap.place_all size wu cg sols σ occ)
    (place_all size wu sols (Heap.rows_of σ cg, occ)).
Proof.
  intros Hnd. revert σ occ.
  induction sols as [|sol sols IH]; intros σ occ Hwf; simpl.
  - by repeat split.
  - pose proof (Heap_place_simulates size wu cg σ occ sol Hnd Hwf)
      as (Hfr & Hdom & Hres).
    destruct (Heap.place size wu cg σ occ sol) as [σ1 res1].
    destruct (place size wu (Heap.rows_of σ cg, occ) sol) as [e|[g1 occ1]];
      simpl in *.
    + subst res1. by repeat split.
    + destruct Hres as [-> <-].
      eapply Heap_simulates_after; [exact Hfr|exact Hdom|].
      apply IH. intros l Hl. by apply Hdom, Hwf.
Qed.

(** The copy of the rows: new arrays, pairwise distinct, with the
    contents of the rows copied; nothing else changes. *)
Lemma Heap_copy_rows (σ : Heap.Store) (g : list positive) :
  (∀ l, l ∈ g → is_Some (σ !! l)) →
  NoDup (Heap.copy_rows σ g).2 ∧
  (∀ l, l ∈ (Heap.copy_rows σ g).2 →
     σ !! l = None ∧ is_Some ((Heap.copy_rows σ g).1 !! l)) ∧
  (∀ l, is_Some (σ !! l) → (Heap.copy_rows σ g).1 !! l = σ !! l) ∧
  Heap.rows_of (Heap.copy_rows σ g).1 (Heap.copy_rows σ g).2
  = Heap.rows_of σ g.
Proof.
  revert σ. induction g as [|l g IH]; intros σ Hwf; simpl.
  - split; [constructor|]. split; [|done]. intros l Hl. by apply elem_of_nil in Hl.
  - set (l' := fresh (dom σ)).
    assert (Hfresh : σ !! l' = None).
    { apply not_elem_of_dom. apply is_fresh. }
    set (σa := <[l' := default [] (σ !! l)]> σ).
    assert (Hwfa : ∀ l0, is_Some (σ !! l0) → σa !! l0 = σ !! l0).
    { intros l0 [x Hl0]. unfold σa. rewrite lookup_insert_ne; [done|].
      intros <-. congruence. }
    destruct (IH σa) as (Hnd & Hnew & Hfr & Hrows).
    { intros l0 Hl0. rewrite Hwfa; apply Hwf; by right. }
    assert (Hl' : (Heap.copy_rows σa g).1 !! l' = Some (default [] (σ !! l))).
    { rewrite Hfr; unfold σa; rewrite lookup_insert_eq; eauto. }
    split; [|split; [|split]].
    + constructor; [|done]. intros Hin. apply Hnew in Hin as [Hnone _].
      unfold σa in Hnone. by rewrite lookup_insert_eq in Hnone.
    + intros l0 [->|Hin]%elem_of_cons.
      * split; [done|]. by rewrite Hl'.
      * destruct (Hnew _ Hin) as [Hnone Hsome]. split; [|done].
        unfold σa in Hnone. by apply lookup_insert_None in Hnone as [? _].
    + intros l0 Hl0. rewrite Hfr; [by apply Hwfa|]. by rewrite Hwfa.
    + unfold Heap.rows_of in *. simpl. rewrite Hl'. simpl. f_equal.
      rewrite Hrows. apply list_fmap_ext. intros i l0 Hi.
      rewrite Hwfa; [done|]. apply Hwf. right. by eapply list_elem_of_lookup_2.
Qed.

(** The store-based validator computes what the value-based one does. *)
Lemma Heap_refines (σ : Heap.Store) (data : Heap.PuzzleRef) (size : Z) :
  (∀ l, l ∈ Heap.grid data → is_Some (σ !! l)) →
  let h := Heap.validateAndCorrectPuzzleData σ data size in
  (∀ l, is_Some (σ !! l) → h.1 !! l = σ !! l) ∧
  match validateAndCorrectPuzzleData (Heap.value σ data) size with
  | inl e => h.2 = inl e
  | inr out =>
      ∃ ref, h.2 = inr ref ∧ Heap.value h.1 ref = out ∧
        Heap.solution ref = Heap.solution data ∧
        Heap.wordsUsed ref = Heap.wordsUsed data ∧
        ∀ l, l ∈ Heap.grid ref → σ !! l = None
  end.
Proof.
  intros Hwf h. subst h.
  unfold Heap.validateAndCorrectPuzzleData, validateAndCorrectPuzzleData.
  destruct (Heap_copy_rows σ (Heap.grid data) Hwf) as (Hnd & Hnew & Hfr & Hrows).
  destruct (Heap.copy_rows σ (Heap.grid data)) as [σ1 cg]. simpl in *.
  rewrite Hrows.
  destruct (shape_bad (Heap.rows_of σ (Heap.grid data)) size); simpl.
  { split; [done|]. done. }
  pose proof (Heap_place_all_simulates size (Heap.wordsUsed data) cg
    (Heap.solution data) σ1 ∅ Hnd (λ l Hl, proj2 (Hnew l Hl)))
    as (Hfr2 & Hdom2 & Hres).
  rewrite Hrows in Hres.
  destruct (Heap.place_all size (Heap.wordsUsed data) cg (Heap.solution data)
    σ1 ∅) as [σ2 res]. simpl in *.
  assert (Hframe : ∀ l, is_Some (σ !! l) → σ2 !! l = σ !! l).
  { intros l Hl. rewrite Hfr2; [by apply Hfr|].
    intros Hin. apply Hnew in Hin as [Hnone _].
    rewrite Hnone in Hl. by destruct Hl. }
  destruct (place_all size (Heap.wordsUsed data) (Heap.solution data)
    (Heap.rows_of σ (Heap.grid data), ∅)) as [e|[g2 occ2]]; simpl in *.
  - subst res. done.
  - destruct Hres as [-> Hg2]. split; [done|].
    eexists. split; [done|]. unfold Heap.value. simpl. rewrite Hg2.
    split; [done|]. split; [done|]. split; [done|].
    intros l Hl. by apply Hnew in Hl as [? _].
Qed.

(** C8. On success the returned puzzle has the solution list and the
    [wordsUsed] list of the candidate, and a grid made of new rows; in
    every case, success or failure, each array that existed before the
    call holds after it what it held before, so the candidate denotes
    the same puzzle. *)
Theorem input_left_unmodified (σ : Heap.Store) (data : Heap.PuzzleRef)
    (size : Z) :
  (∀ l, l ∈ Heap.grid data → is_Some (σ !! l)) →
  let h := Heap.validateAndCorrectPuzzleData σ data size in
  (∀ l, is_Some (σ !! l) → h.1 !! l = σ !! l) ∧
  Heap.value h.1 data = Heap.value σ data ∧
  (∀ ref, h.2 = inr ref →
     Heap.solution ref = Heap.solution data ∧
     Heap.wordsUsed ref = Heap.wordsUsed data ∧
     (∀ l, l ∈ Heap.grid ref → σ !! l = None) ∧
     validateAndCorrectPuzzleData (Heap.value σ data) size
     = inr (Heap.value h.1 ref)).
Proof.
  intros Hwf h. destruct (Heap_refines σ data size Hwf) as [Hframe Hres].
  fold h in Hframe, Hres. split; [done|]. split.
  - unfold Heap.value, Heap.rows_of. f_equal.
    apply list_fmap_ext. intros i l Hl. rewrite Hframe; [done|].
    apply Hwf. by eapply list_elem_of_lookup_2.
  - intros ref Href.
    destruct (validateAndCorrectPuzzleData (Heap.value σ data) size) as [e|out].
    + congruence.
    + destruct Hres as (ref' & Href' & <- & ? & ? & ?).
      assert (ref' = ref) as -> by congruence. done.
Qed.

(** ** Further properties of the validator *)

(** X1. Whatever the geometry of its placements, a puzzle the validator
    returns for a candidate whose words are made of plain letters is
    returned unchanged when it is validated again. *)
Theorem accepted_is_fixpoint (d out : PuzzleData) (size : Z) :
  Forall (λ sol, plain_word (word sol)) (solution d) →
  validateAndCorrectPuzzleData d size = inr out →
  validateAndCorrectPuzzleData out size = inr out ∧
  solution out = solution d ∧ wordsUsed out = wordsUsed d ∧
  shape_ok (grid out) size.
Proof.
  intros Hplain Hv.
  pose proof (validate_inr_repairs d size out Hv) as (_ & Hfix).
  destruct (Hfix Hplain) as [_ Hfix']. split; [done|].
  apply validate_inr in Hfix' as [Hshape _].
  apply validate_inr in Hv as (_ & g' & occ' & _ & ->). done.
Qed.

(** X2. Two placements of the solution list whose walks share a cell
    make the validator fail, whatever else the candidate holds. *)
Theorem shared_cell_never_accepted (d : PuzzleData) (size : Z)
    (l1 l2 l3 : list Solution) (p q : Solution) (k : Z * Z) :
  solution d = l1 ++ p :: l2 ++ q :: l3 →
  k ∈ cells p → k ∈ cells q →
  ∃ e, validateAndCorrectPuzzleData d size = inl e.
Proof.
  intros Hsol Hp Hq.
  destruct (validateAndCorrectPuzzleData d size) as [e|out] eqn:Hv; [eauto|].
  apply accepted_no_intersections in Hv. unfold no_intersections in Hv.
  rewrite Hsol, bind_app, bind_cons, bind_app, bind_cons in Hv.
  apply NoDup_app in Hv as (_ & _ & Hv).
  apply NoDup_app in Hv as (_ & Hdisj & _).
  exfalso. apply (Hdisj k Hp). apply elem_of_app. right.
  apply elem_of_app. by left.
Qed.

(** X3. The walk of a straight placement that passes the bounds and
    length checks stays inside the grid and ends at the declared end. *)
Theorem straight_walk_in_grid (size : Z) (wu : list string) (sol : Solution) :
  checks_pass size wu sol → straight sol →
  Forall (in_grid size) (cells sol) ∧
  last (cells sol) = Some (endRow sol, endCol sol).
Proof.
  intros (_ & _ & Hb & Hl) Hst. split.
  - apply Forall_forall. intros k Hk. by eapply straight_in_grid.
  - unfold cells, visits. rewrite fmap_last, last_lookup, claims_from_length.
    assert (0 < len (word sol)) as Hpos.
    { rewrite <- Hl. unfold expectedLength. lia. }
    unfold len in Hpos.
    destruct (claims_from (startRow sol) (startCol sol)
                (Z.sgn (endRow sol - startRow sol))
                (Z.sgn (endCol sol - startCol sol)) (word sol)
              !! Nat.pred (String.length (word sol))) as [[k ch]|] eqn:Hk.
    + apply claims_from_lookup in Hk as [-> _]. simpl. f_equal.
      unfold expectedLength, len, straight in *.
      destruct (Z.sgn_spec (endRow sol - startRow sol)) as [[? ->]|[[? ->]|[? ->]]];
      destruct (Z.sgn_spec (endCol sol - startCol sol)) as [[? ->]|[[? ->]|[? ->]]];
      f_equal; lia.
    + apply lookup_ge_None in Hk. rewrite claims_from_length in Hk. lia.
Qed.

(** X4. Every placement of an accepted candidate passed the four checks:
    in particular its word has the length its coordinates imply. *)
Theorem accepted_placements_checked (d out : PuzzleData) (size : Z) :
  validateAndCorrectPuzzleData d size = inr out →
  Forall (λ sol, checks_pass size (wordsUsed d) sol ∧
                 Z.max (Z.abs (endRow sol - startRow sol))
                       (Z.abs (endCol sol - startCol sol)) + 1
                 = len (word sol)) (solution d).
Proof.
  intros (_ & g' & occ' & Hrun & _)%validate_inr.
  apply place_all_inr in Hrun as (_ & Hchecks & _).
  eapply Forall_impl; [exact Hchecks|]. intros sol Hc. split; [done|].
  by destruct Hc as (_ & _ & _ & ?).
Qed.

(** X5. Distinct cells have distinct keys in the occupied-cell map. *)
Theorem distinct_cells_distinct_keys (r c r' c' : Z) :
  (r, c) ≠ (r', c') → cell_key r c ≠ cell_key r' c'.
Proof.
  intros Hne Heq. apply Hne.
  by apply cell_key_inj in Heq as [-> ->].
Qed.

(** ** The output grid and the diagnostics *)

Lemma walk_inl_inv w rest r c dRow dCol g occ size e :
  grid_ok g size →
  NoDup (claims_from r c dRow dCol rest).*1 →
  walk w rest r c dRow dCol g occ = inl e →
  (∃ k ex, k ∈ (claims_from r c dRow dCol rest).*1 ∧
           occ !! key_of k = Some ex ∧
           e = IntersectionError w ex.1 (k.1 + 1) (k.2 + 1)) ∨
  (e = TypeError ∧
   ∃ k, k ∈ (claims_from r c dRow dCol rest).*1 ∧ ¬ in_grid size k).
Proof.
  revert r c g occ.
  induction rest as [|ch rest IH]; intros r c g occ Hok Hnd; simpl in *; [done|].
  apply NoDup_cons in Hnd as [Hhead Hnd].
  destruct (occ !! cell_key r c) as [ex|] eqn:Hocc.
  { intros [= <-]. left. exists (r, c), ex. split; [by left|done]. }
  assert (Hoff : (∀ x, grid_get g r c ≠ Some (CStr x)) → ¬ in_grid size (r, c)).
  { intros Hne Hin. destruct (grid_ok_get g size r c Hok Hin) as [s' Hs'].
    by apply (Hne s'). }
  destruct (grid_get g r c) as [[s|]|] eqn:Hget.
  - intros Hwalk. apply IH in Hwalk as [(k & ex & Hk & Hex & ->)|(-> & k & Hk & Hoffk)];
      [| |by destruct (decide _); [|apply grid_ok_set]|done].
    + left. exists k, ex. split; [by right|]. split; [|done].
      rewrite lookup_insert_ne in Hex; [done|].
      apply (key_of_ne (r, c) k). by intros <-.
    + right. split; [done|]. exists k. split; [by right|done].
  - intros [= <-]. right. split; [done|]. exists (r, c). split; [by left|].
    apply Hoff. congruence.
  - intros [= <-]. right. split; [done|]. exists (r, c). split; [by left|].
    apply Hoff. congruence.
Qed.

(** Who holds a cell after a run that started with no cell claimed. *)
Lemma place_all_occupant size wu sols g g' occ' k v :
  place_all size wu sols (g, ∅) = inr (g', occ') →
  occ' !! key_of k = Some v →
  ∃ sol, sol ∈ sols ∧ k ∈ cells sol ∧ v.1 = word sol.
Proof.
  intros Hrun Hv. apply place_all_inr in Hrun as (_ & _ & P3 & P4 & _).
  destruct (decide (Exists (λ sol, k ∈ cells sol) sols)) as [Hex|Hno].
  - apply Exists_exists in Hex as (sol & Hsol & Hk). exists sol.
    split; [done|]. split; [done|].
    apply elem_of_claims_cells in Hk as [ch Hk].
    destruct (P3 _ _ _ Hsol Hk) as (_ & Hsome & _).
    rewrite Hsome in Hv. by injection Hv as <-.
  - destruct (P4 k) as [_ Hsame].
    { intros sol Hsol Hk. apply Hno, Exists_exists. eauto. }
    rewrite Hsame, lookup_empty in Hv. done.
Qed.

(** X7. What an accepted candidate's grid becomes: it keeps its
    dimensions; a cell that a placement visits keeps its content when it
    spells the letter up to case and becomes the upper-case letter
    otherwise; a cell that no placement visits keeps its content. *)
Theorem output_grid_characterised (d out : PuzzleData) (size : Z) :
  validateAndCorrectPuzzleData d size = inr out →
  grid_ok (grid out) size ∧
  (∀ sol k ch, sol ∈ solution d → (k, ch) ∈ visits sol →
     ∃ s, grid_get (grid d) k.1 k.2 = Some (CStr s) ∧
          grid_get (grid out) k.1 k.2
          = Some (CStr (if decide (toUpperCase s
                                   = toUpperCase (String ch EmptyString))
                        then s else toUpperCase (String ch EmptyString)))) ∧
  (∀ r c, (∀ sol, sol ∈ solution d → (r, c) ∉ cells sol) →
     grid_get (grid out) r c = grid_get (grid d) r c).
Proof.
  intros (Hshape & g' & occ' & Hrun & ->)%validate_inr. simpl.
  split; [|split].
  - eapply place_all_grid_ok; [|exact Hrun]. by apply shape_ok_grid_ok.
  - apply place_all_inr in Hrun as (_ & _ & P3 & _).
    intros sol k ch Hsol Hk.
    destruct (P3 _ _ _ Hsol Hk) as (_ & _ & s & Hg & Hg'). eauto.
  - apply place_all_inr in Hrun as (_ & _ & _ & P4 & _).
    intros r c Hfree. by destruct (P4 (r, c) Hfree) as [? _].
Qed.

(** X8. A candidate whose grid already spells every word along its
    walk, up to case, is returned as it is when it is accepted: no
    letter is put in upper case, no filler is touched. *)
Theorem consistent_candidate_unchanged (d out : PuzzleData) (size : Z) :
  validateAndCorrectPuzzleData d size = inr out →
  (∀ sol k ch, sol ∈ solution d → (k, ch) ∈ visits sol →
     spells (grid d) k ch) →
  out = d.
Proof.
  intros (_ & g' & occ' & Hrun & ->)%validate_inr Hsp.
  pose proof (place_all_noop _ _ _ _ _ _ _ (grid d) Hrun Hsp) as Hnoop.
  rewrite Hrun in Hnoop. injection Hnoop as ->. by destruct d.
Qed.

(** X9. Every failure of the validator is one of its diagnostics, and
    says true: the shape error for a grid of the wrong shape; otherwise
    an error about a placement of the solution list -- its word for the
    corner, cross-reference, bounds and length errors, with the fact
    that makes the check fail; the words of the two placements and the
    1-indexed coordinates of a cell both walks visit for the
    intersection error; a cell of its walk outside the grid for the
    [TypeError]. *)
Theorem diagnostic_is_accurate (d : PuzzleData) (size : Z) (e : Error) :
  validateAndCorrectPuzzleData d size = inl e →
  (e = ShapeError size ∧ ¬ shape_ok (grid d) size) ∨
  ∃ sol, sol ∈ solution d ∧
    ((e = CornerError (word sol) ∧ startRow sol = 0 ∧ startCol sol = 0) ∨
     (e = NotInWordsUsed (word sol) ∧ word sol ∉ wordsUsed d) ∨
     (e = OutOfBounds (word sol) ∧ out_of_bounds sol size = true) ∨
     (e = LengthMismatch (word sol) (expectedLength sol) (len (word sol)) ∧
      expectedLength sol ≠ len (word sol)) ∨
     (∃ p k, e = IntersectionError (word sol) (word p) (k.1 + 1) (k.2 + 1) ∧
             p ∈ solution d ∧ k ∈ cells p ∧ k ∈ cells sol) ∨
     (e = TypeError ∧ ∃ k, k ∈ cells sol ∧ ¬ in_grid size k)).
Proof.
  intros [[Hbad ->]|[Hshape Hrun]]%validate_inl; [by left|]. right.
  apply place_all_inl_inv in Hrun
    as (pre & sol & post & [g1 occ1] & Hsol & Hpre & Hplace).
  assert (Hin : ∀ p, p ∈ pre → p ∈ solution d).
  { intros p Hp. rewrite Hsol. apply elem_of_app. by left. }
  exists sol. split; [rewrite Hsol; apply elem_of_app; right; by left|].
  apply place_inl in Hplace
    as [[Hc ->]|[[Hw ->]|[[Hb ->]|[[Hl ->]|[Hchecks Hwalk]]]]].
  - left. split; [done|]. unfold corner_start in Hc.
    apply andb_true_iff in Hc as [Hr Hc].
    by apply bool_decide_eq_true in Hr, Hc.
  - right. by left.
  - do 2 right. by left.
  - do 3 right. by left.
  - do 4 right. unfold walk_of in Hwalk. simpl in Hwalk.
    eapply walk_inl_inv in Hwalk
      as [(k & ex & Hk & Hex & ->)|(-> & k & Hk & Hoff)].
    + left. destruct (place_all_occupant _ _ _ _ _ _ _ _ Hpre Hex)
        as (p & Hp & Hkp & ->).
      exists p, k. split; [done|]. split; [by apply Hin|]. done.
    + right. split; [done|]. by exists k.
    + eapply place_all_grid_ok; [|exact Hpre]. by apply shape_ok_grid_ok.
    + apply cells_NoDup. by destruct Hchecks as (_ & _ & _ & ?).
Qed.

(** X10. A candidate whose placements are all straight lines never makes
    the validator end with a [TypeError]: its reads stay in the grid. *)
Theorem straight_placements_no_type_error (d : PuzzleData) (size : Z) :
  Forall straight (solution d) →
  validateAndCorrectPuzzleData d size ≠ inl TypeError.
Proof.
  intros Hstraight Hv. apply validate_inl in Hv as [[_ [=]]|[Hshape Hrun]].
  apply place_all_inl_inv in Hrun
    as (pre & sol & post & [g1 occ1] & Hsol & Hpre & Hplace).
  assert (Hst : straight sol).
  { rewrite Forall_forall in Hstraight. apply Hstraight.
    rewrite Hsol. apply elem_of_app. right. by left. }
  apply place_inl in Hplace
    as [[_ [=]]|[[_ [=]]|[[_ [=]]|[[_ [=]]|[Hchecks Hwalk]]]]].
  unfold walk_of in Hwalk. simpl in Hwalk.
  eapply walk_inl_inv in Hwalk as [(k & ex & _ & _ & [=])|(_ & k & Hk & Hoff)].
  - apply Hoff. destruct Hchecks as (_ & _ & Hb & Hl).
    by eapply straight_in_grid.
  - eapply place_all_grid_ok; [|exact Hpre]. by apply shape_ok_grid_ok.
  - apply cells_NoDup. by destruct Hchecks as (_ & _ & _ & ?).
Qed.

(** ** What is accepted *)

Lemma validate_inr_iff d size :
  (∃ out, validateAndCorrectPuzzleData d size = inr out) ↔
  shape_ok (grid d) size ∧
  Forall (checks_pass size (wordsUsed d)) (solution d) ∧
  Forall (in_grid size) (solution d ≫= cells) ∧
  no_intersections (solution d).
Proof.
  split.
  - intros [out Hv].
    pose proof (accepted_no_intersections _ _ _ Hv) as Hnd.
    apply validate_inr in Hv as (Hshape & g' & occ' & Hrun & _).
    apply place_all_inr in Hrun as (_ & Hchecks & P3 & _).
    split; [done|]. split; [done|]. split; [|done].
    apply Forall_forall. intros k (sol & Hk & Hsol)%list_elem_of_bind.
    apply elem_of_claims_cells in Hk as [ch Hk].
    destruct (P3 _ _ _ Hsol Hk) as (_ & _ & s & Hg & _).
    destruct k as [r c]. by eapply grid_get_in_grid.
  - intros (Hshape & Hchecks & Hin & Hnd).
    destruct (place_all_succeeds size (wordsUsed d) (solution d) (grid d) ∅)
      as [[g' occ'] Hrun]; [by apply shape_ok_grid_ok|done| |done|].
    { rewrite Forall_forall in Hin. intros k Hk. split; [by apply Hin|done]. }
    eexists. apply validate_inr. split; [done|]. eauto.
Qed.

(** X20. What the validator accepts, exactly: a candidate is returned,
    repaired, if and only if its grid has the expected shape, every
    placement passes the corner, word-list, bounds and length checks,
    every cell of every walk lies in the grid, and no cell is visited
    twice.  Nothing is asked of the letters of the grid, nor of the
    direction of a walk. *)
Theorem acceptance_characterised (d : PuzzleData) (size : Z) :
  (∃ out, validateAndCorrectPuzzleData d size = inr out) ↔
  shape_ok (grid d) size ∧
  Forall (checks_pass size (wordsUsed d)) (solution d) ∧
  Forall (in_grid size) (solution d ≫= cells) ∧
  no_intersections (solution d).
Proof. apply validate_inr_iff. Qed.

(** X21. The order of the placements decides which error is reported,
    and nothing else: a candidate that is accepted is accepted with its
    placements in any other order, and the repaired grid is the same,
    cell by cell. *)
Theorem placement_order_irrelevant (d out : PuzzleData) (size : Z)
    (sols : list Solution) :
  validateAndCorrectPuzzleData d size = inr out →
  sols ≡ₚ solution d →
  ∃ out',
    validateAndCorrectPuzzleData
      {| grid := grid d; solution := sols; wordsUsed := wordsUsed d |} size
    = inr out' ∧
    ∀ r c, grid_get (grid out') r c = grid_get (grid out) r c.
Proof.
  intros Hv Hperm.
  destruct (proj1 (validate_inr_iff d size) (ex_intro _ out Hv))
    as (Hshape & Hchecks & Hin & Hnd).
  destruct (proj2 (validate_inr_iff
              {| grid := grid d; solution := sols; wordsUsed := wordsUsed d |}
              size)) as [out' Hv'].
  { simpl. split; [done|]. split; [by rewrite Hperm|].
    unfold no_intersections. by rewrite Hperm. }
  exists out'. split; [done|]. intros r c.
  apply validate_inr in Hv as (_ & g1 & occ1 & Hrun & ->).
  apply validate_inr in Hv' as (_ & g2 & occ2 & Hrun' & ->). simpl in *.
  apply place_all_inr in Hrun as (_ & _ & P3 & P4 & _).
  apply place_all_inr in Hrun' as (_ & _ & P3' & P4' & _).
  destruct (decide (Exists (λ sol, (r, c) ∈ cells sol) (solution d)))
    as [Hex|Hno].
  - apply Exists_exists in Hex as (sol & Hsol & Hk).
    apply elem_of_claims_cells in Hk as [ch Hk].
    destruct (P3 _ _ _ Hsol Hk) as (_ & _ & s & Hg & Hg1).
    assert (Hsol' : sol ∈ sols) by (by rewrite Hperm).
    destruct (P3' _ _ _ Hsol' Hk) as (_ & _ & s' & Hg' & Hg2).
    simpl in *. congruence.
  - destruct (P4 (r, c)) as [Hg1 _].
    { intros sol Hsol Hk. apply Hno, Exists_exists. eauto. }
    destruct (P4' (r, c)) as [Hg2 _].
    { intros sol Hsol Hk. apply Hno, Exists_exists.
      exists sol. split; [by rewrite <- Hperm|done]. }
    simpl in *. congruence.
Qed.

(** ** The retry loop, read from its outcome *)

Lemma attempt_body_inr resp size data :
  attempt_body resp size = inr data →
  ∃ g sols wu,
    resp = Payload (Some g) (Some sols) (Some wu) ∧
    validateAndCorrectPuzzleData
      {| grid := g; solution := sols; wordsUsed := wu |} size = inr data.
Proof.
  destruct resp as [m|[g|] [sols|] [wu|]]; simpl; try done.
  destruct (validateAndCorrectPuzzleData _ _) as [e|out] eqn:Hv; [done|].
  intros [= <-]. eauto.
Qed.

Lemma generate_inr_inv generator words size directions data :
  result (generateWordSearch generator words size directions) = inr data →
  ∃ i, (1 ≤ i ≤ MAX_RETRIES)%nat ∧
    requests (generateWordSearch generator words size directions) = i ∧
    (∀ j, (1 ≤ j < i)%nat →
       failed (generator (mkRequest words size directions) j) size) ∧
    attempt_body (generator (mkRequest words size directions) i) size
    = inr data.
Proof.
  unfold generateWordSearch, MAX_RETRIES, failed. simpl.
  destruct (attempt_body (generator _ 1%nat) size) as [e1|d1] eqn:H1; simpl.
  2:{ intros [= <-]. exists 1%nat. split; [lia|]. split; [done|].
      split; [intros; lia|done]. }
  destruct (attempt_body (generator _ 2%nat) size) as [e2|d2] eqn:H2; simpl.
  2:{ intros [= <-]. exists 2%nat. split; [lia|]. split; [done|].
      split; [|done]. intros j Hj. assert (j = 1%nat) as -> by lia. eauto. }
  destruct (attempt_body (generator _ 3%nat) size) as [e3|d3] eqn:H3; simpl.
  2:{ intros [= <-]. exists 3%nat. split; [lia|]. split; [done|].
      split; [|done]. intros j Hj.
      destruct (decide (j = 1%nat)) as [->|?]; [eauto|].
      assert (j = 2%nat) as -> by lia. eauto. }
  done.
Qed.

Lemma generate_inl_inv generator words size directions msg :
  result (generateWordSearch generator words size directions) = inl msg →
  msg = terminal_message ∧
  requests (generateWordSearch generator words size directions) = MAX_RETRIES ∧
  ∀ i, (1 ≤ i ≤ MAX_RETRIES)%nat →
    failed (generator (mkRequest words size directions) i) size.
Proof.
  unfold generateWordSearch, MAX_RETRIES, failed. simpl.
  destruct (attempt_body (generator _ 1%nat) size) as [e1|d1] eqn:H1;
    simpl; [|done].
  destruct (attempt_body (generator _ 2%nat) size) as [e2|d2] eqn:H2;
    simpl; [|done].
  destruct (attempt_body (generator _ 3%nat) size) as [e3|d3] eqn:H3;
    simpl; [|done].
  intros [= <-]. split; [done|]. split; [done|]. intros i Hi.
  destruct (decide (i = 1%nat)) as [->|?]; [eauto|].
  destruct (decide (i = 2%nat)) as [->|?]; [eauto|].
  assert (i = 3%nat) as -> by lia. eauto.
Qed.

(** X11. A call of [generateWordSearch] ends in one of two ways, and in
    no other.  Either it returns a puzzle: then that puzzle is what the
    validator made of the response to the last request sent, which
    carried a grid, a solution list and a word list, and every request
    before it failed.  Or it throws: then the message is the terminal
    one, three requests were sent and all three attempts failed.  No
    error of an attempt reaches the caller, and no response is returned
    without having been validated. *)
Theorem generate_outcome (generator : Request → nat → Response)
    (words : list string) (size : Z) (directions : list Direction) :
  let req := mkRequest words size directions in
  let o := generateWordSearch generator words size directions in
  (∃ i g sols wu data,
     (1 ≤ i ≤ MAX_RETRIES)%nat ∧ requests o = i ∧
     (∀ j, (1 ≤ j < i)%nat → failed (generator req j) size) ∧
     generator req i = Payload (Some g) (Some sols) (Some wu) ∧
     validateAndCorrectPuzzleData
       {| grid := g; solution := sols; wordsUsed := wu |} size = inr data ∧
     result o = inr data) ∨
  (result o = inl terminal_message ∧ requests o = MAX_RETRIES ∧
   ∀ i, (1 ≤ i ≤ MAX_RETRIES)%nat → failed (generator req i) size).
Proof.
  intros req o.
  destruct (result o) as [msg|data] eqn:Hres.
  - right. apply generate_inl_inv in Hres as (-> & ? & ?). done.
  - left. apply generate_inr_inv in Hres as (i & Hi & Hreq & Hfail & Hbody).
    apply attempt_body_inr in Hbody as (g & sols & wu & Hresp & Hv).
    exists i, g, sols, wu, data. done.
Qed.

(** X12. The console tells the story of the call: one warning for each
    failed attempt, in order, carrying the number of the attempt and the
    error it failed with; nothing more when a puzzle is returned; and,
    when the call throws, one last line with the error of the third
    attempt. *)
Theorem console_reports_each_failure (generator : Request → nat → Response)
    (words : list string) (size : Z) (directions : list Direction) :
  let req := mkRequest words size directions in
  let o := generateWordSearch generator words size directions in
  ∃ errs : list AttemptError,
    (∀ i e, errs !! i = Some e →
       attempt_body (generator req (S i)) size = inl e) ∧
    ((∃ data, result o = inr data ∧ S (length errs) = requests o ∧
              console o = imap (λ i e, Warn (S i) e) errs) ∨
     (result o = inl terminal_message ∧ length errs = MAX_RETRIES ∧
      console o
      = imap (λ i e, Warn (S i) e) errs ++ [AllFailed (last errs)])).
Proof.
  intros req o. subst o. unfold generateWordSearch, MAX_RETRIES. fold req.
  simpl.
  destruct (attempt_body (generator req 1%nat) size) as [e1|d1] eqn:H1; simpl.
  2:{ exists []. split; [done|]. left. by exists d1. }
  destruct (attempt_body (generator req 2%nat) size) as [e2|d2] eqn:H2; simpl.
  2:{ exists [e1]. split; [|left; by exists d2].
      intros [|i] e; simpl; [by intros [= <-]|done]. }
  destruct (attempt_body (generator req 3%nat) size) as [e3|d3] eqn:H3; simpl.
  2:{ exists [e1; e2]. split; [|left; by exists d3].
      intros [|[|i]] e; simpl; [by intros [= <-]..|done]. }
  exists [e1; e2; e3]. split; [|by right].
  intros [|[|[|i]]] e; simpl; [by intros [= <-]..|done].
Qed.

(** X13. Validator and retry loop together: whatever the external
    service answers, a puzzle that [generateWordSearch] returns has a
    grid of [size] rows of [size] strings, placements that pass the four
    checks against its word list, and no cell visited twice; and when
    its words are made of plain letters, every cell is one character and
    the grid spells every word along its walk. *)
Theorem returned_puzzle_is_checked (generator : Request → nat → Response)
    (words : list string) (size : Z) (directions : list Direction)
    (data : PuzzleData) :
  result (generateWordSearch generator words size directions) = inr data →
  grid_ok (grid data) size ∧
  Forall (checks_pass size (wordsUsed data)) (solution data) ∧
  no_intersections (solution data) ∧
  (Forall (λ sol, plain_word (word sol)) (solution data) →
   shape_ok (grid data) size ∧
   ∀ sol k ch, sol ∈ solution data → (k, ch) ∈ visits sol →
     spells (grid data) k ch).
Proof.
  intros (i & _ & _ & _ & Hbody)%generate_inr_inv.
  apply attempt_body_inr in Hbody as (g & sols & wu & _ & Hv).
  pose proof (accepted_no_intersections _ _ _ Hv) as Hnd.
  pose proof (validate_inr_repairs _ _ _ Hv) as [_ Hfix].
  apply validate_inr in Hv as (Hshape & g' & occ' & Hrun & ->).
  simpl in *. split; [|split; [|split]].
  - eapply place_all_grid_ok; [|exact Hrun]. by apply shape_ok_grid_ok.
  - by apply place_all_inr in Hrun as (_ & ? & _).
  - done.
  - intros Hplain. split; [by eapply place_all_shape|].
    by destruct (Hfix Hplain) as [? _].
Qed.

(** ** The grid component *)

Lemma palette_defined index :
  is_Some (colorPalette !! (index mod length colorPalette)%nat).
Proof. apply lookup_lt_is_Some, Nat.mod_upper_bound. done. Qed.

Lemma highlight_Some_inv fuel r c eR eC dR dC color m m' :
  highlight fuel r c eR eC dR dC color m = Some m' →
  ∃ n : nat, (n < fuel)%nat ∧
    eR = r + Z.of_nat n * dR ∧ eC = c + Z.of_nat n * dC.
Proof.
  revert r c m. induction fuel as [|fuel IH]; intros r c m; simpl; [done|].
  destruct (decide (r = eR ∧ c = eC)) as [[-> ->]|_].
  - intros _. exists 0%nat. split; [lia|]. split; lia.
  - intros (n & Hn & -> & ->)%IH. exists (S n). split; [lia|]. split; lia.
Qed.

Lemma highlight_reaches (n : nat) r c eR eC dR dC color m :
  eR = r + Z.of_nat n * dR → eC = c + Z.of_nat n * dC →
  is_Some (highlight (S n) r c eR eC dR dC color m).
Proof.
  revert r c m. induction n as [|n IH]; intros r c m Hr Hc; simpl.
  - rewrite decide_True by (split; lia). done.
  - destruct (decide (r = eR ∧ c = eC)); [done|].
    apply (IH (r + dR) (c + dC)); lia.
Qed.

Lemma highlight_mono fuel fuel' r c eR eC dR dC color m m' :
  highlight fuel r c eR eC dR dC color m = Some m' →
  (fuel ≤ fuel')%nat →
  highlight fuel' r c eR eC dR dC color m = Some m'.
Proof.
  revert fuel' r c m. induction fuel as [|fuel IH]; intros fuel' r c m;
    simpl; [done|].
  destruct fuel' as [|fuel']; [lia|]. simpl.
  destruct (decide (r = eR ∧ c = eC)); [done|].
  intros Hrun ?. apply IH; [done|lia].
Qed.

(** The loop ends for the straight placements, and for no others. *)
Lemma reach_straight sol (n : nat) :
  endRow sol
  = startRow sol + Z.of_nat n * Z.sgn (endRow sol - startRow sol) →
  endCol sol
  = startCol sol + Z.of_nat n * Z.sgn (endCol sol - startCol sol) →
  straight sol.
Proof.
  unfold straight.
  destruct (Z.sgn_spec (endRow sol - startRow sol)) as [[? ->]|[[? ->]|[? ->]]];
  destruct (Z.sgn_spec (endCol sol - startCol sol)) as [[? ->]|[[? ->]|[? ->]]];
  lia.
Qed.

Lemma straight_reach sol :
  straight sol →
  let n := Z.to_nat (expectedLength sol - 1) in
  endRow sol
  = startRow sol + Z.of_nat n * Z.sgn (endRow sol - startRow sol) ∧
  endCol sol
  = startCol sol + Z.of_nat n * Z.sgn (endCol sol - startCol sol).
Proof.
  unfold straight, expectedLength.
  destruct (Z.sgn_spec (endRow sol - startRow sol)) as [[? ->]|[[? ->]|[? ->]]];
  destruct (Z.sgn_spec (endCol sol - startCol sol)) as [[? ->]|[[? ->]|[? ->]]];
  lia.
Qed.

Lemma highlight_all_straight fuel index sols m :
  is_Some (highlight_all fuel index sols m) → Forall straight sols.
Proof.
  revert index m. induction sols as [|sol sols IH]; intros index m; simpl;
    [constructor|].
  destruct (highlight_placement fuel index sol m) as [m1|] eqn:Hone; simpl;
    [|by intros [? ?]].
  intros Hrest. constructor; [|by eapply IH].
  apply highlight_Some_inv in Hone as (n & _ & Hr & Hc).
  by eapply reach_straight.
Qed.

Lemma straight_highlight_all sols :
  Forall straight sols →
  ∃ fuel, ∀ fuel' index m, (fuel ≤ fuel')%nat →
    is_Some (highlight_all fuel' index sols m).
Proof.
  induction 1 as [|sol sols Hst _ [fuel IH]]; simpl.
  - exists 0%nat. by intros.
  - apply straight_reach in Hst as [Hr Hc].
    exists (S (Z.to_nat (expectedLength sol - 1)) `max` fuel)%nat.
    intros fuel' index m Hfuel.
    destruct (highlight_reaches _ _ _ _ _ _ _
                (colorPalette !! (index mod length colorPalette)%nat) m
                Hr Hc) as [m1 Hm1].
    unfold highlight_placement.
    rewrite (highlight_mono _ fuel' _ _ _ _ _ _ _ _ _ Hm1) by lia. simpl.
    apply IH. lia.
Qed.

(** X14. The overlay of the solution is computed in finitely many steps
    exactly when every placement is a straight line: the [while (true)]
    loop of a horizontal, vertical or diagonal placement reaches its end
    cell, and the loop of any other placement steps past it and never
    ends. *)
Theorem overlay_terminates_iff_straight (sols : list Solution) :
  (∃ fuel, is_Some (highlightedCells fuel true sols)) ↔ Forall straight sols.
Proof.
  unfold highlightedCells. simpl. split.
  - intros [fuel Hsome]. by eapply highlight_all_straight.
  - intros [fuel Hfuel]%straight_highlight_all. exists fuel. by apply Hfuel.
Qed.

Lemma paint_lookup_in color ks m k :
  k ∈ ks → paint color ks m !! key_of k = Some color.
Proof.
  unfold paint. revert m. induction ks as [|k' ks IH] using rev_ind;
    intros m Hin; [by apply elem_of_nil in Hin|].
  rewrite foldl_app. simpl.
  destruct (decide (k = k')) as [->|Hne]; [by rewrite lookup_insert_eq|].
  rewrite lookup_insert_ne by (by apply key_of_ne).
  apply IH. apply elem_of_app in Hin as [?|Hin]; [done|].
  by apply list_elem_of_singleton in Hin.
Qed.

Lemma paint_lookup_notin color ks m k :
  k ∉ ks → paint color ks m !! key_of k = m !! key_of k.
Proof.
  unfold paint. revert m. induction ks as [|k' ks IH]; intros m Hin; [done|].
  simpl. apply not_elem_of_cons in Hin as [Hne Hin].
  rewrite IH by done. by rewrite lookup_insert_ne by (by apply key_of_ne).
Qed.

(** On a walk without repetition that ends at the end cell, the loop
    makes one iteration per letter and colours the cells of the walk. *)
Lemma highlight_claims rest r c eR eC dR dC color m :
  NoDup (claims_from r c dR dC rest).*1 →
  last (claims_from r c dR dC rest).*1 = Some (eR, eC) →
  highlight (String.length rest) r c eR eC dR dC color m
  = Some (paint color (claims_from r c dR dC rest).*1 m).
Proof.
  revert r c m. induction rest as [|ch rest IH]; intros r c m; simpl; [done|].
  intros [Hhead Hnd]%NoDup_cons. rewrite last_cons.
  destruct (last _) as [k|] eqn:Hl.
  - intros [= ->]. rewrite decide_False.
    + by apply IH.
    + intros [-> ->]. apply Hhead. by eapply last_Some_elem_of.
  - intros [= -> ->]. apply last_None in Hl. rewrite Hl.
    by rewrite decide_True by done.
Qed.

Lemma straight_last_cell sol :
  expectedLength sol = len (word sol) → straight sol →
  last (cells sol) = Some (endRow sol, endCol sol).
Proof.
  intros Hl Hst.
  unfold cells, visits. rewrite fmap_last, last_lookup, claims_from_length.
  assert (0 < len (word sol)) as Hpos.
  { rewrite <- Hl. unfold expectedLength. lia. }
  unfold len in Hpos.
  destruct (claims_from (startRow sol) (startCol sol)
              (Z.sgn (endRow sol - startRow sol))
              (Z.sgn (endCol sol - startCol sol)) (word sol)
            !! Nat.pred (String.length (word sol))) as [[k ch]|] eqn:Hk.
  - apply claims_from_lookup in Hk as [-> _]. simpl. f_equal.
    unfold expectedLength, len, straight in *.
    destruct (Z.sgn_spec (endRow sol - startRow sol)) as [[? ->]|[[? ->]|[? ->]]];
    destruct (Z.sgn_spec (endCol sol - startCol sol)) as [[? ->]|[[? ->]|[? ->]]];
    f_equal; lia.
  - apply lookup_ge_None in Hk. rewrite claims_from_length in Hk. lia.
Qed.

Lemma highlight_placement_cells fuel index sol m :
  expectedLength sol = len (word sol) → straight sol →
  (String.length (word sol) ≤ fuel)%nat →
  highlight_placement fuel index sol m
  = Some (paint (colorPalette !! (index mod length colorPalette)%nat)
            (cells sol) m).
Proof.
  intros Hl Hst Hfuel. unfold highlight_placement.
  eapply highlight_mono; [|exact Hfuel].
  apply highlight_claims.
  - by apply cells_NoDup.
  - by apply straight_last_cell.
Qed.

Lemma highlight_all_cells fuel index sols m :
  Forall (λ sol, expectedLength sol = len (word sol) ∧ straight sol ∧
                 (String.length (word sol) ≤ fuel)%nat) sols →
  NoDup (sols ≫= cells) →
  ∃ m', highlight_all fuel index sols m = Some m' ∧
    (∀ i sol k, sols !! i = Some sol → k ∈ cells sol →
       m' !! key_of k
       = Some (colorPalette !! ((index + i) mod length colorPalette)%nat)) ∧
    (∀ k, (∀ sol, sol ∈ sols → k ∉ cells sol) →
       m' !! key_of k = m !! key_of k).
Proof.
  intros Hall. revert index m.
  induction Hall as [|sol sols (Hl & Hst & Hfuel) _ IH]; intros index m Hnd.
  - exists m. split; [done|]. split; [|done]. by intros i sol k.
  - simpl in Hnd. apply NoDup_app in Hnd as (_ & Hdisj & Hnd).
    simpl. rewrite highlight_placement_cells by done. simpl.
    destruct (IH (S index) (paint (colorPalette !! (index mod length colorPalette)%nat)
                              (cells sol) m) Hnd)
      as (m' & Hrun & Hin & Hout).
    exists m'. split; [done|]. split.
    + intros [|i] sol' k; simpl.
      * intros [= <-] Hk. rewrite Hout.
        -- rewrite Nat.add_0_r. by apply paint_lookup_in.
        -- intros sol' Hsol' Hk'. apply (Hdisj k Hk).
           apply list_elem_of_bind. eauto.
      * intros Hi Hk. rewrite (Hin i sol' k Hi Hk).
        by replace (S index + i)%nat with (index + S i)%nat by lia.
    + intros k Hfree. rewrite Hout.
      * apply paint_lookup_notin. apply Hfree. by left.
      * intros sol' Hsol'. apply Hfree. by right.
Qed.

(** X15. Validator and grid component together: for a puzzle the
    validator accepted whose placements are straight lines, showing the
    solution takes at most [size] iterations per placement and colours
    exactly the cells the validator walked -- the cells of the [i]-th
    placement in the class at position [i] modulo 14 of the palette, and
    no other cell of the grid. *)
Theorem overlay_colours_validated_cells (d out : PuzzleData) (size : Z)
    (fuel : nat) :
  validateAndCorrectPuzzleData d size = inr out →
  Forall straight (solution d) →
  (Z.to_nat size ≤ fuel)%nat →
  ∃ cellMap,
    highlightedCells fuel true (solution out) = Some cellMap ∧
    (∀ i sol rowIndex colIndex,
       solution out !! i = Some sol →
       (Z.of_nat rowIndex, Z.of_nat colIndex) ∈ cells sol →
       highlightColor cellMap rowIndex colIndex
       = colorPalette !! (i mod length colorPalette)%nat ∧
       is_Some (highlightColor cellMap rowIndex colIndex)) ∧
    (∀ rowIndex colIndex,
       (∀ sol, sol ∈ solution out →
          (Z.of_nat rowIndex, Z.of_nat colIndex) ∉ cells sol) →
       highlightColor cellMap rowIndex colIndex = None).
Proof.
  intros Hv Hst Hfuel.
  pose proof (accepted_no_intersections _ _ _ Hv) as Hnd.
  apply validate_inr in Hv as (_ & g' & occ' & Hrun & ->). simpl.
  apply place_all_inr in Hrun as (_ & Hchecks & _).
  destruct (highlight_all_cells fuel 0 (solution d) ∅) as (m & Hm & Hin & Hout);
    [|done|].
  { rewrite Forall_forall in Hst, Hchecks. apply Forall_forall.
    intros sol Hsol. destruct (Hchecks sol Hsol) as (_ & _ & Hb & Hl).
    split; [done|]. split; [by apply Hst|].
    unfold out_of_bounds in Hb.
    rewrite !orb_false_iff, !bool_decide_eq_false in Hb.
    unfold expectedLength, len in Hl. lia. }
  exists m. split; [done|]. unfold highlightColor. split.
  - intros i sol rowIndex colIndex Hi Hk.
    pose proof (Hin i sol (Z.of_nat rowIndex, Z.of_nat colIndex) Hi Hk) as Hcol.
    unfold key_of in Hcol. simpl in Hcol. rewrite Hcol. simpl.
    split; [done|]. apply palette_defined.
  - intros rowIndex colIndex Hfree.
    pose proof (Hout (Z.of_nat rowIndex, Z.of_nat colIndex) Hfree) as Hnone.
    unfold key_of in Hnone. simpl in Hnone.
    by rewrite Hnone, lookup_empty.
Qed.

End Properties.

(** * The form *)

(** ** Lines and white space *)

Lemma split_nonempty s : Controls.split s ≠ [].
Proof.
  destruct s as [|ch rest]; simpl; [done|].
  destruct (decide (ch = Controls.LF)); [done|].
  by destruct (Controls.split rest).
Qed.

Lemma split_no_LF s w :
  w ∈ Controls.split s → Controls.LF ∉ list_ascii_of_string w.
Proof.
  revert w. induction s as [|ch rest IH]; intros w; simpl.
  - intros ->%list_elem_of_singleton. simpl. apply not_elem_of_nil.
  - destruct (decide (ch = Controls.LF)) as [->|Hne].
    + intros [->|Hin]%elem_of_cons; [apply not_elem_of_nil|by apply IH].
    + destruct (Controls.split rest) as [|w0 ws] eqn:Hsplit.
      { by apply split_nonempty in Hsplit. }
      intros [->|Hin]%elem_of_cons.
      * simpl. apply not_elem_of_cons. split; [done|]. apply IH. by left.
      * apply IH. by right.
Qed.

Lemma trimStart_chars s ch :
  ch ∈ list_ascii_of_string (Controls.trimStart s) →
  ch ∈ list_ascii_of_string s.
Proof.
  induction s as [|a rest IH]; simpl; [done|].
  destruct (Controls.is_space a); [|done].
  intros Hin. right. by apply IH.
Qed.

Lemma trimEnd_chars s ch :
  ch ∈ list_ascii_of_string (Controls.trimEnd s) →
  ch ∈ list_ascii_of_string s.
Proof.
  induction s as [|a rest IH]; simpl; [done|].
  destruct (Controls.trimEnd rest) as [|b t].
  - destruct (Controls.is_space a); simpl.
    + by intros ?%elem_of_nil.
    + intros [->|?%elem_of_nil]%elem_of_cons; [by left|done].
  - intros [->|Hin]%elem_of_cons; [by left|]. right. by apply IH.
Qed.

Lemma trimStart_first s ch :
  Controls.first_char (Controls.trimStart s) = Some ch →
  Controls.is_space ch = false.
Proof.
  induction s as [|a rest IH]; simpl; [done|].
  destruct (Controls.is_space a) eqn:Ha; [done|].
  simpl. by intros [= <-].
Qed.

Lemma trimEnd_first s ch :
  Controls.first_char (Controls.trimEnd s) = Some ch →
  Controls.first_char s = Some ch.
Proof.
  destruct s as [|a rest]; simpl; [done|].
  destruct (Controls.trimEnd rest); [|done].
  by destruct (Controls.is_space a).
Qed.

Lemma trimEnd_last s ch :
  Controls.last_char (Controls.trimEnd s) = Some ch →
  Controls.is_space ch = false.
Proof.
  induction s as [|a rest IH]; simpl; [done|].
  destruct (Controls.trimEnd rest) as [|b t] eqn:Ht.
  - destruct (Controls.is_space a) eqn:Ha; simpl; [done|]. by intros [= <-].
  - change (Controls.last_char (String a (String b t)))
      with (match Controls.last_char (String b t) with
            | Some ch' => Some ch'
            | None => Some a
            end).
    destruct (Controls.last_char (String b t)) as [ch'|] eqn:Hlast.
    + intros [= <-]. by apply IH.
    + simpl in Hlast. by destruct (Controls.last_char t).
Qed.

Lemma trimStart_blank s :
  Controls.trimStart s = EmptyString ↔ Controls.blank_text s.
Proof.
  unfold Controls.blank_text.
  induction s as [|a rest IH]; simpl; [by split; [constructor|]|].
  rewrite Forall_cons. destruct (Controls.is_space a); split.
  - intros ?%IH. done.
  - intros [_ ?]. by apply IH.
  - done.
  - by intros [? _].
Qed.

Lemma trimEnd_blank s :
  Controls.trimEnd s = EmptyString ↔ Controls.blank_text s.
Proof.
  unfold Controls.blank_text.
  induction s as [|a rest IH]; simpl; [by split; [constructor|]|].
  rewrite Forall_cons, <- IH.
  destruct (Controls.trimEnd rest); [|by split; [|intros [_ ?]]].
  destruct (Controls.is_space a); split; try done. by intros [? _].
Qed.

Lemma trimStart_blank_inv s :
  Controls.blank_text (Controls.trimStart s) →
  Controls.trimStart s = EmptyString.
Proof.
  unfold Controls.blank_text.
  induction s as [|a rest IH]; simpl; [done|].
  destruct (Controls.is_space a) eqn:Ha; [done|].
  simpl. intros [? _]%Forall_cons. congruence.
Qed.

Lemma trim_blank s : Controls.trim s = EmptyString ↔ Controls.blank_text s.
Proof.
  unfold Controls.trim. rewrite trimEnd_blank. split.
  - intros ?%trimStart_blank_inv. by apply trimStart_blank.
  - intros ->%trimStart_blank. constructor.
Qed.

Lemma split_blank s :
  Forall Controls.blank_text (Controls.split s) ↔ Controls.blank_text s.
Proof.
  induction s as [|a rest IH]; simpl.
  - split; [constructor|]. intros _. by repeat constructor.
  - unfold Controls.blank_text at 2. simpl. rewrite Forall_cons.
    fold (Controls.blank_text rest). rewrite <- IH.
    destruct (decide (a = Controls.LF)) as [->|Hne].
    + rewrite Forall_cons. split.
      * intros [_ ?]. done.
      * intros [_ ?]. split; [constructor|done].
    + destruct (Controls.split rest) as [|w0 ws] eqn:Hsplit.
      { by apply split_nonempty in Hsplit. }
      rewrite !Forall_cons. unfold Controls.blank_text at 1. simpl.
      rewrite Forall_cons. fold (Controls.blank_text w0). tauto.
Qed.

Lemma filter_trim_nil l :
  filter (λ w, w ≠ EmptyString) (Controls.trim <$> l) = []
  ↔ Forall Controls.blank_text l.
Proof.
  induction l as [|w l IH]; simpl; [by split; [constructor|]|].
  rewrite filter_cons, Forall_cons, <- IH, <- trim_blank.
  destruct (decide (Controls.trim w ≠ EmptyString)) as [Hne|Heq].
  - split; [done|]. by intros [? _].
  - apply dec_stable in Heq. by split; [|intros [_ ?]].
Qed.

Lemma wordList_nil s :
  Controls.wordList s = [] ↔ Controls.blank_text s.
Proof. unfold Controls.wordList. by rewrite filter_trim_nil, split_blank. Qed.

Lemma wordList_clean s : Forall Controls.clean_word (Controls.wordList s).
Proof.
  apply Forall_forall. intros w.
  unfold Controls.wordList.
  intros [Hne (w0 & -> & Hw0)%list_elem_of_fmap]%list_elem_of_filter.
  split; [done|]. unfold Controls.trim in *. split; [|split].
  - intros Hin. apply (split_no_LF s w0 Hw0).
    by apply trimStart_chars, trimEnd_chars.
  - intros ch Hch. by apply trimEnd_first, trimStart_first in Hch.
  - apply trimEnd_last.
Qed.

(** ** The state of the form *)

Lemma toggle_NoDup st d :
  NoDup (Controls.selectedDirections st) →
  NoDup (Controls.selectedDirections (Controls.handleDirectionChange st d)).
Proof.
  intros Hnd. unfold Controls.handleDirectionChange. simpl.
  destruct (bool_decide (d ∈ Controls.selectedDirections st)) eqn:Hin.
  - by apply NoDup_filter.
  - apply bool_decide_eq_false in Hin. apply NoDup_app.
    split; [done|]. split; [|apply NoDup_singleton].
    by intros d' Hd' ->%list_elem_of_singleton.
Qed.

Lemma toggle_elem_of st d d' :
  d' ∈ Controls.selectedDirections (Controls.handleDirectionChange st d)
  ↔ if decide (d' = d) then d ∉ Controls.selectedDirections st
    else d' ∈ Controls.selectedDirections st.
Proof.
  unfold Controls.handleDirectionChange. simpl.
  destruct (bool_decide (d ∈ Controls.selectedDirections st)) eqn:Hin.
  - apply bool_decide_eq_true in Hin. rewrite list_elem_of_filter.
    destruct (decide (d' = d)) as [->|Hne]; [|tauto].
    split; [by intros [? _]|done].
  - apply bool_decide_eq_false in Hin.
    rewrite elem_of_app, list_elem_of_singleton.
    destruct (decide (d' = d)) as [->|Hne]; [tauto|]. tauto.
Qed.

Lemma step_form_ok st ev : form_ok st → form_ok (Controls.step st ev).1.
Proof.
  intros [Hsize Hnd]. destruct ev as [value|parsed|d|]; simpl; try done.
  - split; [|done]. simpl. lia.
  - split; [done|]. by apply toggle_NoDup.
Qed.

Lemma handleSubmit_cases st :
  (Controls.blank_text (Controls.words st)
   ∨ Controls.selectedDirections st = []) ∧
  Controls.handleSubmit st
  = [Controls.Alert
       "Please enter at least one word and select at least one direction."]
  ∨
  ¬ Controls.blank_text (Controls.words st) ∧
  Controls.selectedDirections st ≠ [] ∧
  Controls.handleSubmit st
  = [Controls.OnGenerate (Controls.wordList (Controls.words st))
       (Controls.size st) (Controls.selectedDirections st)].
Proof.
  unfold Controls.handleSubmit.
  destruct (Controls.wordList (Controls.words st)) as [|w ws] eqn:Hwl.
  { left. split; [|done]. left. by apply wordList_nil. }
  destruct (Controls.selectedDirections st) as [|d ds] eqn:Hsel.
  { left. split; [|done]. by right. }
  right. simpl. split; [|done].
  intros Hblank%wordList_nil. congruence.
Qed.

Lemma run_effects st evs ws sz ds :
  form_ok st →
  Controls.OnGenerate ws sz ds ∈ (Controls.run st evs).2 →
  ws ≠ [] ∧ Forall Controls.clean_word ws ∧ 5 ≤ sz ≤ 30 ∧
  ds ≠ [] ∧ NoDup ds.
Proof.
  revert st. induction evs as [|ev evs IH]; intros st Hok; simpl.
  { by intros ?%elem_of_nil. }
  pose proof (step_form_ok st ev Hok) as Hok1.
  destruct (Controls.step st ev) as [st1 out1] eqn:Hstep.
  destruct (Controls.run st1 evs) as [st2 out2] eqn:Hrun. simpl.
  intros [Hin|Hin]%elem_of_app.
  - destruct ev as [value|parsed|d|]; simpl in Hstep;
      injection Hstep as <- <-; try by apply elem_of_nil in Hin.
    destruct (handleSubmit_cases st) as [[_ Heq]|(Hnb & Hsel & Heq)];
      rewrite Heq in Hin; apply list_elem_of_singleton in Hin; [done|].
    injection Hin as -> -> ->. destruct Hok as [Hsize Hnd].
    split; [by rewrite wordList_nil|]. split; [apply wordList_clean|done].
  - apply (IH st1 Hok1). by rewrite Hrun.
Qed.

(** X16. Whatever the user types, selects and submits, in whatever
    order, every call of [onGenerate] made by the form carries at least
    one word, each word non-empty, on one line and with no white space
    at either end; a size between 5 and 30; and at least one direction,
    none twice. *)
Theorem form_requests_well_formed (evs : list Controls.Event)
    (ws : list string) (sz : Z) (ds : list Direction) :
  Controls.OnGenerate ws sz ds ∈ (Controls.run Controls.initial evs).2 →
  ws ≠ [] ∧ Forall Controls.clean_word ws ∧ 5 ≤ sz ≤ 30 ∧
  ds ≠ [] ∧ NoDup ds.
Proof.
  apply run_effects. split; [by vm_compute|]. by_eval.
Qed.

(** X17. Submitting the form has one of two effects.  It alerts, and
    makes no request, exactly when the text holds nothing but white
    space and line breaks or when no direction is selected; otherwise it
    makes one request, with the trimmed non-empty lines of the text, the
    size and the directions of the form. *)
Theorem submit_alerts_or_generates (st : Controls.State) :
  (Controls.blank_text (Controls.words st)
   ∨ Controls.selectedDirections st = []) ∧
  Controls.handleSubmit st
  = [Controls.Alert
       "Please enter at least one word and select at least one direction."]
  ∨
  ¬ Controls.blank_text (Controls.words st) ∧
  Controls.selectedDirections st ≠ [] ∧
  Controls.handleSubmit st
  = [Controls.OnGenerate (Controls.wordList (Controls.words st))
       (Controls.size st) (Controls.selectedDirections st)].
Proof. apply handleSubmit_cases. Qed.

(** X18. Ticking the box of a direction flips the selection of that
    direction and of no other, keeps the selection free of repetition
    and leaves the words and the size alone; ticking it twice gives back
    a selection with the same directions. *)
Theorem direction_toggle (st : Controls.State) (d : Direction) :
  NoDup (Controls.selectedDirections st) →
  let st' := Controls.handleDirectionChange st d in
  NoDup (Controls.selectedDirections st') ∧
  (d ∈ Controls.selectedDirections st'
   ↔ d ∉ Controls.selectedDirections st) ∧
  (∀ d', d' ≠ d →
     d' ∈ Controls.selectedDirections st'
     ↔ d' ∈ Controls.selectedDirections st) ∧
  Controls.words st' = Controls.words st ∧
  Controls.size st' = Controls.size st ∧
  Controls.selectedDirections (Controls.handleDirectionChange st' d)
  ≡ₚ Controls.selectedDirections st.
Proof.
  intros Hnd st'. split; [by apply toggle_NoDup|]. split; [|split].
  - subst st'. rewrite toggle_elem_of. by rewrite decide_True.
  - intros d' Hne. subst st'. rewrite toggle_elem_of.
    by rewrite decide_False.
  - split; [done|]. split; [done|].
    apply NoDup_Permutation; [by apply toggle_NoDup, toggle_NoDup|done|].
    intros d'. subst st'. rewrite toggle_elem_of.
    destruct (decide (d' = d)) as [->|Hne].
    + rewrite toggle_elem_of, decide_True by done.
      destruct (decide (d ∈ Controls.selectedDirections st)); tauto.
    + by rewrite toggle_elem_of, decide_False.
Qed.

(** * The page *)

Section Page.
Context {case : CaseMapping}.


End Page.

(** * The scenarios, evaluated *)

#[local] Existing Instance ascii_case.


Example scenarioA_repaired :
  validateAndCorrectPuzzleData scenarioA 5 = inr scenarioA_out.
Proof. by vm_compute. Qed.

Example scenarioB_intersects :
  validateAndCorrectPuzzleData scenarioB 7
  = inl (IntersectionError "GOAT" "DOG" 1 4).
Proof. by vm_compute. Qed.

Example scenarioC_corner :
  validateAndCorrectPuzzleData scenarioC 5 = inl (CornerError "SUN").
Proof. by vm_compute. Qed.

Lemma shape_ok_eval g size : shape_bad g size = false → shape_ok g size.
Proof. apply shape_bad_false. Qed.

Lemma repair_is_idempotent_scenarioA :
  ∃ out,
    validateAndCorrectPuzzleData scenarioA 5 = inr out ∧
    (∀ sol k ch, sol ∈ solution scenarioA → (k, ch) ∈ visits sol →
       ∃ s, grid_get (grid scenarioA) k.1 k.2 = Some (CStr s) ∧
            grid_get (grid out) k.1 k.2 = Some (CStr (repaired s ch))) ∧
    (∀ sol k ch, sol ∈ solution out → (k, ch) ∈ visits sol →
       spells (grid out) k ch) ∧
    validateAndCorrectPuzzleData out 5 = inr out.
Proof.
  apply (repair_is_idempotent scenarioA 5).
  - apply shape_ok_eval. reflexivity.
  - constructor; [|constructor].
    split; [repeat split; try reflexivity; by_eval|].
    split; [by_eval|apply ascii_plain_word].
  - unfold no_intersections. by_eval.
Defined.

(** C1, at two failing inputs.  Both candidates pass every check of the
    validator.  In the first the placement of ABCD from (3, 1) to (4, 4)
    has the length its coordinates imply and walks off the grid: the
    call ends with a [TypeError], no puzzle is returned.  In the second
    the word is the sharp s, whose upper case is SS: the repair writes
    the two characters into the cell (1, 1), and validating the returned
    puzzle fails with the shape error. *)
Theorem checked_candidate_not_repaired :
  (shape_ok (grid off_grid) 5 ∧
   Forall (checks_pass 5 (wordsUsed off_grid)) (solution off_grid) ∧
   no_intersections (solution off_grid) ∧
   validateAndCorrectPuzzleData (case := ascii_case) off_grid 5
   = inl TypeError) ∧
  (shape_ok (grid sharp_word) 5 ∧
   Forall (λ sol, checks_pass 5 (wordsUsed sharp_word) sol ∧ straight sol)
     (solution sharp_word) ∧
   no_intersections (solution sharp_word) ∧
   validateAndCorrectPuzzleData (case := sharp_case) sharp_word 5
   = inr sharp_word_out ∧
   validateAndCorrectPuzzleData (case := sharp_case) sharp_word_out 5
   = inl (ShapeError 5)).
Proof.
  split.
  - split; [by apply shape_ok_eval|].
    split; [constructor; [|constructor]; repeat split; try reflexivity; by_eval|].
    split; [unfold no_intersections; by_eval|by vm_compute].
  - split; [by apply shape_ok_eval|].
    split; [constructor; [|constructor];
            split; [repeat split; try reflexivity; by_eval|by_eval]|].
    split; [unfold no_intersections; by_eval|].
    split; by vm_compute.
Qed.

(** C2, at a failing input.  The placement of ABC from (0, 1) to (1, 3)
    is no straight line; its coordinates imply the length 3 of its word,
    so the length check lets it through: the candidate is accepted, and
    the word is written along the diagonal (0, 1), (1, 2), (2, 3), which
    does not end at the declared end (1, 3). *)
Theorem bent_placement_accepted :
  let sol := mkSolution "ABC" 0 1 1 3 in
  ¬ straight sol ∧
  expectedLength sol = len (word sol) ∧
  cells sol = [(0, 1); (1, 2); (2, 3)] ∧
  validateAndCorrectPuzzleData bent 5
  = inr {| grid := [ [X; CStr "A"; X; X; X];
                     [X; X; CStr "B"; X; X];
                     [X; X; X; CStr "C"; X];
                     replicate 5 X; replicate 5 X ];
           solution := solution bent;
           wordsUsed := wordsUsed bent |}.
Proof.
  intros sol. split; [|by vm_compute].
  unfold straight. simpl. lia.
Qed.

(** C9, at a failing input.  The placement of ABCD from (3, 1) to (4, 4)
    passes the corner, cross-reference, bounds and length checks on a
    well-shaped 5 x 5 grid; the third cell of its walk is (5, 3), below
    the last row, and the read there ends the call with a [TypeError]. *)
Theorem walk_leaves_grid :
  let sol := mkSolution "ABCD" 3 1 4 4 in
  shape_ok (grid off_grid) 5 ∧
  checks_pass 5 (wordsUsed off_grid) sol ∧
  cells sol = [(3, 1); (4, 2); (5, 3); (6, 4)] ∧
  ¬ in_grid 5 (5, 3) ∧
  validateAndCorrectPuzzleData off_grid 5 = inl TypeError.
Proof.
  intros sol. split; [by apply shape_ok_eval|].
  split; [repeat split; try reflexivity; by_eval|].
  split; [reflexivity|]. split; [|by vm_compute].
  unfold in_grid. simpl. lia.
Qed.

Lemma intersection_reported_scenarioB :
  validateAndCorrectPuzzleData scenarioB 7
  = inl (IntersectionError "GOAT" "DOG" (0 + 1) (3 + 1)).
Proof.
  eapply (intersection_reported scenarioB 7
            [mkSolution "DOG" 0 1 0 3] [] (mkSolution "DOG" 0 1 0 3)
            (mkSolution "GOAT" 0 3 0 6) _
            [] [((0, 4), "O"%char); ((0, 5), "A"%char); ((0, 6), "T"%char)]
            (0, 3) "G"%char).
  - apply shape_ok_eval. reflexivity.
  - reflexivity.
  - vm_compute. reflexivity.
  - repeat split; try reflexivity; by_eval.
  - reflexivity.
  - intros k' Hk'. by apply elem_of_nil in Hk'.
  - by_eval.
  - by_eval.
Defined.

Lemma corner_start_rejected_scenarioC :
  validateAndCorrectPuzzleData scenarioC 5 = inl (CornerError "SUN").
Proof.
  destruct (corner_start_rejected scenarioC 5 [] [] (mkSolution "SUN" 0 0 0 2))
    as (_ & Herr & _ & _); [reflexivity..|].
  apply Herr.
  - apply shape_ok_eval. reflexivity.
  - eexists. reflexivity.
Defined.

(** C4 as stated fails: with a placement in the corner, the error may
    name another word, or none.  In the first candidate DOG, listed
    before SUN, is not in [wordsUsed]; in the second the grid has four
    rows where five are expected. *)
Lemma corner_error_masked :
  (mkSolution "SUN" 0 0 0 2 ∈ solution corner_after_failure ∧
   validateAndCorrectPuzzleData corner_after_failure 5
   = inl (NotInWordsUsed "DOG") ∧
   ¬ names (NotInWordsUsed "DOG") "SUN") ∧
  (mkSolution "SUN" 0 0 0 2 ∈ solution corner_in_bad_grid ∧
   validateAndCorrectPuzzleData corner_in_bad_grid 5 = inl (ShapeError 5) ∧
   ¬ names (ShapeError 5) "SUN").
Proof.
  split; (split; [by_eval|]); (split; [by vm_compute|]); simpl; [done|tauto].
Qed.

Lemma unlisted_word_rejected_example :
  ∃ e, validateAndCorrectPuzzleData unlisted 5 = inl e ∧ names e "CAT" ∧
       e = NotInWordsUsed "CAT".
Proof.
  destruct (unlisted_word_rejected unlisted 5 [mkSolution "DOG" 1 1 1 3] []
              (mkSolution "CAT" 2 1 2 3)) as (_ & Herr);
    [reflexivity|by_eval|].
  apply Herr.
  - apply shape_ok_eval. reflexivity.
  - eexists. vm_compute. reflexivity.
Defined.

(** C7 as stated fails: with a placement whose word is not listed, the
    error may name another word, or none.  In the first candidate DOG,
    listed before CAT, ends out of bounds; in the second the grid has
    four rows where five are expected. *)
Lemma unlisted_error_masked :
  (mkSolution "CAT" 2 1 2 3 ∈ solution unlisted_after_failure ∧
   ("CAT"%string ∉ wordsUsed unlisted_after_failure) ∧
   validateAndCorrectPuzzleData unlisted_after_failure 5
   = inl (OutOfBounds "DOG") ∧
   ¬ names (OutOfBounds "DOG") "CAT") ∧
  (mkSolution "CAT" 2 1 2 3 ∈ solution unlisted_in_bad_grid ∧
   ("CAT"%string ∉ wordsUsed unlisted_in_bad_grid) ∧
   validateAndCorrectPuzzleData unlisted_in_bad_grid 5 = inl (ShapeError 5) ∧
   ¬ names (ShapeError 5) "CAT").
Proof.
  split; (split; [by_eval|]); (split; [by_eval|]); (split; [by vm_compute|]);
    simpl; [done|tauto].
Qed.

Lemma bad_shape_rejected_first_example :
  validateAndCorrectPuzzleData
    {| grid := number_cell; solution := [ mkSolution "SUN" 0 0 0 2 ];
       wordsUsed := [] |} 2
  = inl (ShapeError 2).
Proof.
  apply (bad_shape_rejected_first number_cell [ mkSolution "SUN" 0 0 0 2 ] [] 2).
  intros Hshape%shape_bad_false. vm_compute in Hshape. discriminate.
Defined.

Lemma empty_solution_accepted_example :
  validateAndCorrectPuzzleData no_placement 5 = inr no_placement.
Proof.
  apply (empty_solution_accepted (blank 5) [ "ZEBRA"%string ] 5).
  apply shape_ok_eval. reflexivity.
Defined.

Lemma retries_are_bounded_scenarioD :
  let o := generateWordSearch scenarioD [ "CAT"%string ] 5 [ LTR ] in
  result o = inl terminal_message ∧ requests o = 3%nat ∧
  ∃ e, last (console o) = Some (AllFailed (Some e)).
Proof.
  destruct (retries_are_bounded scenarioD [ "CAT"%string ] 5 [ LTR ])
    as (_ & _ & _ & Hall & _).
  apply Hall. intros i _. exists (Invalid (ShapeError 5)). reflexivity.
Defined.

Lemma input_left_unmodified_shared_rows :
  let h := Heap.validateAndCorrectPuzzleData shared_rows scenarioA_ref 5 in
  (∀ l, is_Some (shared_rows !! l) → h.1 !! l = shared_rows !! l) ∧
  Heap.value h.1 scenarioA_ref = Heap.value shared_rows scenarioA_ref ∧
  (∀ ref, h.2 = inr ref →
     Heap.solution ref = Heap.solution scenarioA_ref ∧
     Heap.wordsUsed ref = Heap.wordsUsed scenarioA_ref ∧
     (∀ l, l ∈ Heap.grid ref → shared_rows !! l = None) ∧
     validateAndCorrectPuzzleData (Heap.value shared_rows scenarioA_ref) 5
     = inr (Heap.value h.1 ref)).
Proof.
  apply (input_left_unmodified shared_rows scenarioA_ref 5).
  intros l Hl. simpl in Hl.
  repeat (apply elem_of_cons in Hl as [->|Hl]); try by_eval.
  by apply elem_of_nil in Hl.
Defined.

Example shared_rows_validated :
  Heap.value (Heap.validateAndCorrectPuzzleData shared_rows scenarioA_ref 5).1
    scenarioA_ref = scenarioA ∧
  ∃ ref, (Heap.validateAndCorrectPuzzleData shared_rows scenarioA_ref 5).2
         = inr ref ∧
    Heap.value (Heap.validateAndCorrectPuzzleData shared_rows scenarioA_ref 5).1
      ref
    = scenarioA_out.
Proof. split; [by vm_compute|]. eexists. split; by vm_compute. Qed.

Lemma accepted_is_fixpoint_scenarioA :
  validateAndCorrectPuzzleData scenarioA_out 5 = inr scenarioA_out ∧
  solution scenarioA_out = solution scenarioA ∧
  wordsUsed scenarioA_out = wordsUsed scenarioA ∧
  shape_ok (grid scenarioA_out) 5.
Proof.
  apply (accepted_is_fixpoint scenarioA scenarioA_out 5).
  - constructor; [apply ascii_plain_word|constructor].
  - vm_compute. reflexivity.
Defined.

Lemma shared_cell_never_accepted_scenarioB :
  ∃ e, validateAndCorrectPuzzleData scenarioB 7 = inl e.
Proof.
  apply (shared_cell_never_accepted scenarioB 7 [] [] []
           (mkSolution "DOG" 0 1 0 3) (mkSolution "GOAT" 0 3 0 6) (0, 3));
    [reflexivity|by_eval..].
Defined.

Lemma straight_walk_in_grid_scenarioA :
  Forall (in_grid 5) (cells (mkSolution "CAT" 1 1 1 3)) ∧
  last (cells (mkSolution "CAT" 1 1 1 3)) = Some (1, 3).
Proof.
  apply (straight_walk_in_grid 5 [ "CAT"%string ] (mkSolution "CAT" 1 1 1 3)).
  - repeat split; try reflexivity; by_eval.
  - by_eval.
Defined.

Lemma accepted_placements_checked_scenarioA :
  Forall (λ sol, checks_pass 5 (wordsUsed scenarioA) sol ∧
                 Z.max (Z.abs (endRow sol - startRow sol))
                       (Z.abs (endCol sol - startCol sol)) + 1
                 = len (word sol)) (solution scenarioA).
Proof.
  apply (accepted_placements_checked scenarioA scenarioA_out 5).
  vm_compute. reflexivity.
Defined.

Lemma distinct_cells_distinct_keys_example :
  cell_key 1 (-1) ≠ cell_key (-1) 1.
Proof. apply (distinct_cells_distinct_keys 1 (-1) (-1) 1). congruence. Defined.

Lemma output_grid_characterised_scenarioA :
  grid_ok (grid scenarioA_out) 5 ∧
  (∀ sol k ch, sol ∈ solution scenarioA → (k, ch) ∈ visits sol →
     ∃ s, grid_get (grid scenarioA) k.1 k.2 = Some (CStr s) ∧
          grid_get (grid scenarioA_out) k.1 k.2
          = Some (CStr (if decide (toUpperCase s
                                   = toUpperCase (String ch EmptyString))
                        then s else toUpperCase (String ch EmptyString)))) ∧
  (∀ r c, (∀ sol, sol ∈ solution scenarioA → (r, c) ∉ cells sol) →
     grid_get (grid scenarioA_out) r c = grid_get (grid scenarioA) r c).
Proof.
  apply (output_grid_characterised scenarioA scenarioA_out 5).
  vm_compute. reflexivity.
Defined.

Lemma consistent_candidate_unchanged_scenarioA_out :
  scenarioA_out = scenarioA_out.
Proof.
  apply (consistent_candidate_unchanged scenarioA_out scenarioA_out 5).
  - vm_compute. reflexivity.
  - intros sol k ch Hsol Hk.
    apply list_elem_of_singleton in Hsol as ->.
    unfold visits in Hk. simpl in Hk.
    repeat (apply elem_of_cons in Hk as [[= -> ->]|Hk]);
      [by eexists; split; vm_compute..|].
    by apply elem_of_nil in Hk.
Defined.

Lemma diagnostic_is_accurate_scenarioB :
  (IntersectionError "GOAT" "DOG" 1 4 = ShapeError 7 ∧
   ¬ shape_ok (grid scenarioB) 7) ∨
  ∃ sol, sol ∈ solution scenarioB ∧
    ((IntersectionError "GOAT" "DOG" 1 4 = CornerError (word sol) ∧
      startRow sol = 0 ∧ startCol sol = 0) ∨
     (IntersectionError "GOAT" "DOG" 1 4 = NotInWordsUsed (word sol) ∧
      word sol ∉ wordsUsed scenarioB) ∨
     (IntersectionError "GOAT" "DOG" 1 4 = OutOfBounds (word sol) ∧
      out_of_bounds sol 7 = true) ∨
     (IntersectionError "GOAT" "DOG" 1 4
      = LengthMismatch (word sol) (expectedLength sol) (len (word sol)) ∧
      expectedLength sol ≠ len (word sol)) ∨
     (∃ p k, IntersectionError "GOAT" "DOG" 1 4
             = IntersectionError (word sol) (word p) (k.1 + 1) (k.2 + 1) ∧
             p ∈ solution scenarioB ∧ k ∈ cells p ∧ k ∈ cells sol) ∨
     (IntersectionError "GOAT" "DOG" 1 4 = TypeError ∧
      ∃ k, k ∈ cells sol ∧ ¬ in_grid 7 k)).
Proof.
  apply (diagnostic_is_accurate scenarioB 7). vm_compute. reflexivity.
Defined.

Lemma straight_placements_no_type_error_scenarioB :
  validateAndCorrectPuzzleData scenarioB 7 ≠ inl TypeError.
Proof.
  apply (straight_placements_no_type_error scenarioB 7).
  repeat constructor; by_eval.
Defined.

Lemma returned_puzzle_is_checked_scenarioE :
  grid_ok (grid scenarioA_out) 5 ∧
  Forall (checks_pass 5 (wordsUsed scenarioA_out)) (solution scenarioA_out) ∧
  no_intersections (solution scenarioA_out) ∧
  (Forall (λ sol, plain_word (word sol)) (solution scenarioA_out) →
   shape_ok (grid scenarioA_out) 5 ∧
   ∀ sol k ch, sol ∈ solution scenarioA_out → (k, ch) ∈ visits sol →
     spells (grid scenarioA_out) k ch).
Proof.
  apply (returned_puzzle_is_checked scenarioE [ "CAT"%string ] 5 [LTR]).
  vm_compute. reflexivity.
Defined.

Lemma overlay_colours_validated_cells_scenarioA :
  ∃ cellMap,
    highlightedCells 5 true (solution scenarioA_out) = Some cellMap ∧
    (∀ i sol rowIndex colIndex,
       solution scenarioA_out !! i = Some sol →
       (Z.of_nat rowIndex, Z.of_nat colIndex) ∈ cells sol →
       highlightColor cellMap rowIndex colIndex
       = colorPalette !! (i mod length colorPalette)%nat ∧
       is_Some (highlightColor cellMap rowIndex colIndex)) ∧
    (∀ rowIndex colIndex,
       (∀ sol, sol ∈ solution scenarioA_out →
          (Z.of_nat rowIndex, Z.of_nat colIndex) ∉ cells sol) →
       highlightColor cellMap rowIndex colIndex = None).
Proof.
  apply (overlay_colours_validated_cells scenarioA scenarioA_out 5 5).
  - vm_compute. reflexivity.
  - repeat constructor.
  - vm_compute. lia.
Defined.

Lemma form_requests_well_formed_initial :
  Controls.wordList (Controls.words Controls.initial) ≠ [] ∧
  Forall Controls.clean_word
    (Controls.wordList (Controls.words Controls.initial)) ∧
  5 ≤ 15 ≤ 30 ∧
  [LTR; TTB; DLR] ≠ [] ∧ NoDup [LTR; TTB; DLR].
Proof.
  apply (form_requests_well_formed [Controls.Submit]).
  vm_compute. by left.
Defined.

Lemma direction_toggle_initial :
  let st' := Controls.handleDirectionChange Controls.initial RTL in
  NoDup (Controls.selectedDirections st') ∧
  (RTL ∈ Controls.selectedDirections st'
   ↔ RTL ∉ Controls.selectedDirections Controls.initial) ∧
  (∀ d', d' ≠ RTL →
     d' ∈ Controls.selectedDirections st'
     ↔ d' ∈ Controls.selectedDirections Controls.initial) ∧
  Controls.words st' = Controls.words Controls.initial ∧
  Controls.size st' = Controls.size Controls.initial ∧
  Controls.selectedDirections (Controls.handleDirectionChange st' RTL)
  ≡ₚ Controls.selectedDirections Controls.initial.
Proof. apply (direction_toggle Controls.initial RTL). by_eval. Defined.

Lemma placement_order_irrelevant_two_words :
  ∃ out',
    validateAndCorrectPuzzleData
      {| grid := grid two_words;
         solution := [ mkSolution "DOG" 3 1 3 3; mkSolution "CAT" 1 1 1 3 ];
         wordsUsed := wordsUsed two_words |} 5
    = inr out' ∧
    ∀ r c, grid_get (grid out') r c = grid_get (grid two_words_out) r c.
Proof.
  apply (placement_order_irrelevant two_words two_words_out 5).
  - vm_compute. reflexivity.
  - apply Permutation_swap.
Defined.
